(** * Tabular Q-learning agent (lab/agents/q_learning_agent.py)

    A shallow embedding of [QLearningAgent]: the value table is a list of
    rows, indices are Python integers ([Z]) normalised the way numpy does,
    exceptions are the left summand of a sum type, and the generator behind
    [self._rng] lives in a store of generator objects addressed by
    reference, because the attribute is an alias of the module [np.random].

    The table is allocated by [np.zeros], whose limits are modelled: the
    index type is the signed 64-bit one and the memory is a parameter.

    Scalars are kept abstract: every statement about the arithmetic holds
    for whatever addition, subtraction and multiplication the table's
    element type has (rounding included), and the statements about maxima
    assume only that [<] is a strict weak order on the stored values. *)

From Stdlib Require Import QArith.
From stdpp Require Import base functions list numbers.

Open Scope Z_scope.

(** ** Exceptions *)

(** The exceptions the methods can raise: all of them come from numpy or
    from attribute lookup, the class has no [raise] of its own. *)
Inductive exception : Set :=
  | IndexError
  | ValueError
  | AttributeError
  | MemoryError.

#[global] Instance exception_eq_dec : EqDecision exception.
Proof. solve_decision. Defined.

Definition result (A : Type) : Type := exception + A.

#[global] Instance result_ret : MRet result := λ A x, inr x.
#[global] Instance result_bind : MBind result := λ A B f m,
  match m with
  | inl e => inl e
  | inr x => f x
  end.

#[global] Instance result_fmap : FMap result := λ A B f m,
  match m with
  | inl e => inl e
  | inr x => inr (f x)
  end.

Definition raise {A} (e : exception) : result A := inl e.

(** ** Scalars *)

(** The element type of the table with the operations the class uses on it. *)
Class Scalar (R : Type) := {
  zero : R;
  add : R → R → R;
  sub : R → R → R;
  mul : R → R → R;
  ltb : R → R → bool;
}.

(** [<] as a strict weak order: what comparisons of numbers that are not
    NaN satisfy. Distinct values may compare as equivalent. *)
Class ScalarOrder (R : Type) `{Scalar R} : Prop := {
  ltb_irrefl : ∀ x : R, ltb x x = false;
  ltb_trans : ∀ x y z : R, ltb x y = true → ltb y z = true → ltb x z = true;
  ltb_negtrans : ∀ x y z : R,
    ltb x y = false → ltb y z = false → ltb x z = false;
}.

(** ** The machine *)

(** Whether an allocation succeeds depends on the machine the process runs
    on: [can_allocate n] tells whether a buffer of [n] bytes is granted. *)
Class Machine := {
  can_allocate : Z → bool;
}.

(** ** The numpy primitives the class calls *)

(** The size in bytes of a [float64], the element type of [np.zeros]. *)
Definition itemsize : Z := 8.

(** A dimension as it enters the overflow check of the byte count: a
    dimension of zero is skipped there. *)
Definition skip_zero (d : Z) : Z := if decide (d = 0) then 1 else d.

Section numpy.
Context {R : Type} `{Scalar R, Machine}.

(** An integer index into an axis of length [n]: negative indices count
    from the end, anything outside [-n, n) raises [IndexError]. *)
Definition normalize_index (n : nat) (i : Z) : result nat :=
  if decide (0 ≤ i < Z.of_nat n) then mret (Z.to_nat i)
  else if decide (- Z.of_nat n ≤ i < 0) then mret (Z.to_nat (i + Z.of_nat n))
  else raise IndexError.

(** [a[i]] on a 1-D or 2-D array stored as a list. *)
Definition getitem {A} (a : list A) (i : Z) : result A :=
  k ← normalize_index (length a) i;
  match a !! k with
  | Some x => mret x
  | None => raise IndexError
  end.

(** [np.zeros((rows, cols))]. A negative dimension is rejected with
    [ValueError], and so is a shape whose byte count does not fit the signed
    64-bit index type (which a dimension beyond that type never does). The
    buffer is then requested from the machine, and [MemoryError] is raised
    when it is not granted. *)
Definition np_zeros (rows cols : Z) : result (list (list R)) :=
  if decide (rows < 0 ∨ cols < 0) then raise ValueError
  else if decide (2 ^ 63 ≤ itemsize * skip_zero rows * skip_zero cols)
  then raise ValueError
  else if can_allocate (itemsize * rows * cols)
  then mret (replicate (Z.to_nat rows) (replicate (Z.to_nat cols) zero))
  else raise MemoryError.

(** The scan of [np.argmax]: the running best is replaced only by a
    strictly larger element. *)
Fixpoint argmax_scan (xs : list R) (i best_i : nat) (best : R) : nat :=
  match xs with
  | [] => best_i
  | x :: xs' =>
      if ltb best x then argmax_scan xs' (S i) i x
      else argmax_scan xs' (S i) best_i best
  end.

(** [np.argmax(a)] on the flattened array; empty input raises. *)
Definition np_argmax (xs : list R) : result Z :=
  match xs with
  | [] => raise ValueError
  | x :: xs' => mret (Z.of_nat (argmax_scan xs' 1 0 x))
  end.

(** [np.maximum] on two scalars. *)
Definition maximum (x y : R) : R := if ltb x y then y else x.

(** [np.max(a)] on a 1-D array: the reduction of [maximum]; empty input
    raises. *)
Definition np_max (xs : list R) : result R :=
  match xs with
  | [] => raise ValueError
  | x :: xs' => mret (foldl maximum x xs')
  end.
End numpy.

(** ** The random generator *)

(** numpy's Mersenne Twister is outside the repository: its three
    operations are taken as an interface. [gen_init] initialises a state
    from a seed, [gen_random] draws a float, [gen_below n] draws an integer
    below [n]; each draw returns the advanced state. *)
Class Generator (R G : Type) := {
  gen_init : Z → G;
  gen_random : G → R * G;
  gen_below : Z → G → Z * G;
}.

(** What numpy documents about the draws: [random()] lies in [0, 1) and
    [randint(n)] in [0, n). Only the lower bound of [random()] is used. *)
Class GeneratorSpec (R G : Type) `{Scalar R, Generator R G} : Prop := {
  gen_random_nonneg : ∀ g : G, ltb (gen_random g).1 zero = false;
  gen_below_range : ∀ (n : Z) (g : G), 0 < n → 0 ≤ (gen_below n g).1 < n;
}.

Section generator.
Context {R G : Type} `{Scalar R, Generator R G, Machine}.

(** [RandomState.seed(seed)]: the seed must lie in [0, 2**32 - 1]. *)
Definition rng_seed (s : Z) : result G :=
  if decide (0 ≤ s < 2 ^ 32) then mret (gen_init s) else raise ValueError.

(** [RandomState.random()]. *)
Definition rng_random (g : G) : R * G := gen_random g.

(** [RandomState.randint(high)]: raises unless [0 < high]. *)
Definition rng_randint (high : Z) (g : G) : result (Z * G) :=
  if decide (high ≤ 0) then raise ValueError else mret (gen_below high g).
End generator.

(** References to generator objects and the store that holds their state.
    [np_random] is the reference of the module-level generator, the one
    object every [from numpy import random] user shares. *)
Definition ref : Set := nat.
Definition np_random : ref := 0%nat.
Definition store (G : Type) : Type := ref → G.

(** ** The agent *)

(** Modelled from the spec: [lab.core.Agent], the base class, is not among
    the sources. Its state is the evaluation-mode flag, off by default, and
    the [last_action] cursor, undefined before the first action is taken;
    reading the undefined cursor raises [AttributeError]. *)
Record Agent : Set := {
  eval_mode : bool;
  _last_action : option Z;
}.

Definition Agent__init__ : Agent :=
  {| eval_mode := false; _last_action := None |}.

Definition get_last_action (base : Agent) : result Z :=
  match _last_action base with
  | Some k => mret k
  | None => raise AttributeError
  end.

(** The attributes of a [QLearningAgent]. [_last_state] is [None] until an
    episode begins; [_rng] is a reference, not a generator. *)
Record QLearningAgent (R : Type) : Type := {
  base : Agent;
  _num_actions : Z;
  _num_states : Z;
  _learning_rate : R;
  _exploration_rate : R;
  _discount_factor : R;
  _last_state : option Z;
  _rng : ref;
  _Q : list (list R);
}.

Arguments base {R} _.
Arguments _num_actions {R} _.
Arguments _num_states {R} _.
Arguments _learning_rate {R} _.
Arguments _exploration_rate {R} _.
Arguments _discount_factor {R} _.
Arguments _last_state {R} _.
Arguments _rng {R} _.
Arguments _Q {R} _.

Section agent.
Context {R G : Type} `{Scalar R, Generator R G, Machine}.

Definition set_eval_mode (self : QLearningAgent R) (b : bool) :
    QLearningAgent R :=
  {| base := {| eval_mode := b; _last_action := _last_action (base self) |};
     _num_actions := _num_actions self;
     _num_states := _num_states self;
     _learning_rate := _learning_rate self;
     _exploration_rate := _exploration_rate self;
     _discount_factor := _discount_factor self;
     _last_state := _last_state self;
     _rng := _rng self;
     _Q := _Q self |}.

Definition set_last_action (self : QLearningAgent R) (k : Z) :
    QLearningAgent R :=
  {| base := {| eval_mode := eval_mode (base self); _last_action := Some k |};
     _num_actions := _num_actions self;
     _num_states := _num_states self;
     _learning_rate := _learning_rate self;
     _exploration_rate := _exploration_rate self;
     _discount_factor := _discount_factor self;
     _last_state := _last_state self;
     _rng := _rng self;
     _Q := _Q self |}.

Definition set_last_state (self : QLearningAgent R) (s : Z) :
    QLearningAgent R :=
  {| base := base self;
     _num_actions := _num_actions self;
     _num_states := _num_states self;
     _learning_rate := _learning_rate self;
     _exploration_rate := _exploration_rate self;
     _discount_factor := _discount_factor self;
     _last_state := Some s;
     _rng := _rng self;
     _Q := _Q self |}.

Definition set_Q (self : QLearningAgent R) (q : list (list R)) :
    QLearningAgent R :=
  {| base := base self;
     _num_actions := _num_actions self;
     _num_states := _num_states self;
     _learning_rate := _learning_rate self;
     _exploration_rate := _exploration_rate self;
     _discount_factor := _discount_factor self;
     _last_state := _last_state self;
     _rng := _rng self;
     _Q := q |}.

(** [__init__]: the hyperparameters are stored as given, the cursor is
    [None], [_rng] is bound to the module [np.random] and the table is
    allocated last. The defaults of the keyword arguments are float
    literals and are left to the caller. *)
Definition __init__ (num_actions num_states : Z)
    (learning_rate exploration_rate discount_factor : R) :
    result (QLearningAgent R) :=
  q ← np_zeros num_states num_actions;
  mret {| base := Agent__init__;
          _num_actions := num_actions;
          _num_states := num_states;
          _learning_rate := learning_rate;
          _exploration_rate := exploration_rate;
          _discount_factor := discount_factor;
          _last_state := None;
          _rng := np_random;
          _Q := q |}.

(** [seed]: re-seeds the generator [_rng] refers to. *)
Definition seed (self : QLearningAgent R) (s : Z) (h : store G) :
    result () * store G :=
  match rng_seed s with
  | inl e => (inl e, h)
  | inr g => (inr (), <[_rng self := g]> h)
  end.

(** [self._Q[self._last_state]]: an integer selects a row; [None] is
    [np.newaxis] and selects the whole table under a new leading axis,
    which [np.argmax] flattens row by row. *)
Definition _greedy_action (self : QLearningAgent R) : result Z :=
  match _last_state self with
  | Some s => row ← getitem (_Q self) s; np_argmax row
  | None => np_argmax (concat (_Q self))
  end.

(** The coin flip advances the generator before either branch runs, so
    the store is returned next to the result even when the branch raises. *)
Definition _epsilon_greedy_action (self : QLearningAgent R) (h : store G) :
    result Z * store G :=
  let '(u, g1) := rng_random (h (_rng self)) in
  if ltb u (_exploration_rate self) then
    match rng_randint (_num_actions self) g1 with
    | inl e => (inl e, <[_rng self := g1]> h)
    | inr (k, g2) => (inr k, <[_rng self := g2]> h)
    end
  else (_greedy_action self, <[_rng self := g1]> h).

Definition act (self : QLearningAgent R) (h : store G) :
    result (Z * QLearningAgent R) * store G :=
  let '(action, h') :=
    if eval_mode (base self) then (_greedy_action self, h)
    else _epsilon_greedy_action self h in
  (k ← action; mret (k, set_last_action self k), h').

Definition begin_episode (self : QLearningAgent R) (observation : Z) :
    QLearningAgent R :=
  set_last_state self observation.

(** The new value of an entry: [delta = target - old] and then
    [old += learning_rate * delta]. *)
Definition td_update (alpha target old : R) : R :=
  add old (mul alpha (sub target old)).

(** The table after [self._Q[last_state, last_action] += ...]. With an
    integer [last_state] the index selects one cell. With
    [last_state = None] the index [None, last_action] selects row
    [last_action] under a new axis, and the update is applied to each
    element of that row. Both indices are looked up before anything is
    written, so a call that raises leaves the table as it was. *)
Definition update_Q (q : list (list R)) (last_state : option Z)
    (last_action : Z) (alpha target : R) : result (list (list R)) :=
  match last_state with
  | Some s =>
      i ← normalize_index (length q) s;
      row ← getitem q s;
      j ← normalize_index (length row) last_action;
      old ← getitem row last_action;
      mret (<[i := <[j := td_update alpha target old]> row]> q)
  | None =>
      i ← normalize_index (length q) last_action;
      row ← getitem q last_action;
      mret (<[i := td_update alpha target <$> row]> q)
  end.

Definition learn (self : QLearningAgent R) (reward : R) (observation : Z) :
    result (QLearningAgent R) :=
  let last_state := _last_state self in
  last_action ← get_last_action (base self);
  let state := observation in
  next_row ← getitem (_Q self) state;
  best ← np_max next_row;
  let target := add reward (mul (_discount_factor self) best) in
  q ← update_Q (_Q self) last_state last_action (_learning_rate self) target;
  mret (set_last_state (set_Q self q) observation).
End agent.

(** ** The training loop's calls *)

(** The training loop is outside the class; a script of its calls is
    enough to drive an agent. An exception that a call raises is not
    caught, so it ends the script. *)
Inductive call (R : Type) : Type :=
  | Seed (s : Z)
  | SetEvalMode (b : bool)
  | BeginEpisode (observation : Z)
  | Act
  | Learn (reward : R) (observation : Z).

Arguments Seed {R} _.
Arguments SetEvalMode {R} _.
Arguments BeginEpisode {R} _.
Arguments Act {R}.
Arguments Learn {R} _ _.

Section driver.
Context {R G : Type} `{Scalar R, Generator R G, Machine}.

(** One call: the action it returns, if it is [act], and the agent after it. *)
Definition step (c : call R) (self : QLearningAgent R) (h : store G) :
    result (option Z * QLearningAgent R) * store G :=
  match c with
  | Seed s =>
      let '(r, h') := seed self s h in (_ ← r; mret (None, self), h')
  | SetEvalMode b => (mret (None, set_eval_mode self b), h)
  | BeginEpisode o => (mret (None, begin_episode self o), h)
  | Act =>
      let '(r, h') := act self h in
      ('(k, self') ← r; mret (Some k, self'), h')
  | Learn r o => (self' ← learn self r o; mret (None, self'), h)
  end.

(** What a script leaves behind: the actions returned so far, the exception
    that ended it (if any), the agent and the store. *)
Record outcome : Type := {
  actions : list Z;
  raised : option exception;
  final : QLearningAgent R;
  final_store : store G;
}.

Fixpoint drive (cs : list (call R)) (self : QLearningAgent R) (h : store G) :
    outcome :=
  match cs with
  | [] => {| actions := []; raised := None; final := self; final_store := h |}
  | c :: cs' =>
      match step c self h with
      | (inl e, h') =>
          {| actions := []; raised := Some e; final := self;
             final_store := h' |}
      | (inr (out, self'), h') =>
          let o := drive cs' self' h' in
          {| actions := option_list out ++ actions o; raised := raised o;
             final := final o; final_store := final_store o |}
      end
  end.

End driver.

(** ** Instances to run the model on *)

(** A machine that grants up to 16 GiB at a time. *)
#[global] Instance sample_machine : Machine := {|
  can_allocate n := bool_decide (n ≤ 2 ^ 34);
|}.

(** Exact rationals as scalars. *)
#[global] Instance Q_scalar : Scalar Q := {|
  zero := 0%Q;
  add := Qplus;
  sub := Qminus;
  mul := Qmult;
  ltb x y := negb (Qle_bool y x);
|}.

(** A small linear congruential generator standing in for numpy's. *)
Definition lcg_next (g : Z) : Z := (1103515245 * g + 12345) `mod` 2 ^ 31.

#[global] Instance lcg : Generator Q Z := {|
  gen_init s := s;
  gen_random g := (Qmake (lcg_next g) (2 ^ 31), lcg_next g);
  gen_below n g := (lcg_next g `mod` n, lcg_next g);
|}.

(** ** Vocabulary of the statements *)

Section vocabulary.
Context {R : Type} `{Scalar R}.

(** [k] is the first position of a maximum of [row]: no entry is greater
    than the entry at [k] and every earlier entry is strictly smaller. *)
Definition first_max (row : list R) (k : nat) (m : R) : Prop :=
  row !! k = Some m ∧
  (∀ j x, row !! j = Some x → ltb m x = false) ∧
  (∀ j x, (j < k)%nat → row !! j = Some x → ltb x m = true).

(** The entry [q[i, j]] for indices already in range. *)
Definition cell (q : list (list R)) (i j : nat) : option R :=
  q !! i ≫= λ row, row !! j.

(** A table of shape [rows × cols]. *)
Definition has_shape (rows cols : nat) (q : list (list R)) : Prop :=
  length q = rows ∧ Forall (λ row, length row = cols) q.

(** The table has the shape the constructor gave it. *)
Definition wf_agent (self : QLearningAgent R) : Prop :=
  0 ≤ _num_states self ∧ 0 ≤ _num_actions self ∧
  has_shape (Z.to_nat (_num_states self)) (Z.to_nat (_num_actions self))
    (_Q self).
End vocabulary.

(** ** The calling protocol *)

(** What the methods need from their caller, as far as the code shows:
    [act] reads the cursor, [learn] reads the cursor and the recorded
    action, and neither is ever unset again once set. *)
Inductive phase : Set :=
  | NoCursor
  | HasCursor
  | HasAction.

(** The phase a call leads to, if the call is safe in the current phase
    with a table of [num_states] rows. *)
Definition admits {R : Type} (num_states : Z) (p : phase) (c : call R) :
    option phase :=
  match c with
  | Seed s => if decide (0 ≤ s < 2 ^ 32) then Some p else None
  | SetEvalMode _ => Some p
  | BeginEpisode o =>
      if decide (0 ≤ o < num_states)
      then Some (match p with HasAction => HasAction | _ => HasCursor end)
      else None
  | Act => match p with NoCursor => None | _ => Some HasAction end
  | Learn _ o =>
      match p with
      | HasAction => if decide (0 ≤ o < num_states) then Some p else None
      | _ => None
      end
  end.

Fixpoint follows_protocol {R : Type} (num_states : Z) (p : phase)
    (cs : list (call R)) : bool :=
  match cs with
  | [] => true
  | c :: cs' =>
      match admits num_states p c with
      | Some p' => follows_protocol num_states p' cs'
      | None => false
      end
  end.

(** The state of the agent that a phase stands for. *)
Definition in_phase {R : Type} `{Scalar R} (p : phase)
    (self : QLearningAgent R) : Prop :=
  wf_agent self ∧ 0 < _num_actions self ∧
  match p with
  | NoCursor => True
  | HasCursor => ∃ s, _last_state self = Some s ∧ 0 ≤ s < _num_states self
  | HasAction =>
      (∃ s, _last_state self = Some s ∧ 0 ≤ s < _num_states self) ∧
      (∃ a, _last_action (base self) = Some a ∧ 0 ≤ a < _num_actions self)
  end.

(** The attributes that the constructor sets and no method assigns. *)
Definition configuration {R : Type} (self : QLearningAgent R) :
    Z * Z * R * R * R * ref :=
  (_num_actions self, _num_states self, _learning_rate self,
   _exploration_rate self, _discount_factor self, _rng self).

(** ** Sample data *)

(** A store whose generators all start in the same state. *)
Definition sample_store : store Z := λ _, 42.

(** The agent [QLearningAgent(3, 2, 0.5, 0.1, 0.99)] as constructed. *)
Definition fresh_agent : QLearningAgent Q := {|
  base := Agent__init__;
  _num_actions := 3;
  _num_states := 2;
  _learning_rate := (1 # 2)%Q;
  _exploration_rate := (1 # 10)%Q;
  _discount_factor := (99 # 100)%Q;
  _last_state := None;
  _rng := np_random;
  _Q := [[0; 0; 0]; [0; 0; 0]]%Q;
|}.

(** The same agent in the middle of an episode: it is in state 0, its last
    action was 1, and some values have been learnt. *)
Definition trained_agent : QLearningAgent Q := {|
  base := {| eval_mode := false; _last_action := Some 1 |};
  _num_actions := 3;
  _num_states := 2;
  _learning_rate := (1 # 2)%Q;
  _exploration_rate := (1 # 10)%Q;
  _discount_factor := (99 # 100)%Q;
  _last_state := Some 0;
  _rng := np_random;
  _Q := [[0; 1 # 2; 1 # 2]; [1; 2; 2]]%Q;
|}.

(** An agent that always explores, at the start of an episode in state 0. *)
Definition exploring_agent : QLearningAgent Q := {|
  base := Agent__init__;
  _num_actions := 3;
  _num_states := 2;
  _learning_rate := (1 # 2)%Q;
  _exploration_rate := 1%Q;
  _discount_factor := (99 # 100)%Q;
  _last_state := Some 0;
  _rng := np_random;
  _Q := [[0; 0; 0]; [0; 0; 0]]%Q;
|}.

(** An agent that never explores, in state 1 of the learnt table. *)
Definition cautious_agent : QLearningAgent Q := {|
  base := {| eval_mode := false; _last_action := Some 1 |};
  _num_actions := 3;
  _num_states := 2;
  _learning_rate := (1 # 2)%Q;
  _exploration_rate := 0%Q;
  _discount_factor := (99 # 100)%Q;
  _last_state := Some 1;
  _rng := np_random;
  _Q := [[0; 1 # 2; 1 # 2]; [1; 2; 2]]%Q;
|}.

(** The agent [QLearningAgent(0, 2, 0.5, 0.1, 0.99)], which has no action,
    after [begin_episode(1)]. *)
Definition actionless_agent : QLearningAgent Q := {|
  base := Agent__init__;
  _num_actions := 0;
  _num_states := 2;
  _learning_rate := (1 # 2)%Q;
  _exploration_rate := (1 # 10)%Q;
  _discount_factor := (99 # 100)%Q;
  _last_state := Some 1;
  _rng := np_random;
  _Q := [[]; []];
|}.




(** * Properties *)

(** ** Indexing *)

Section indexing.
Context {A : Type}.
Implicit Types (a : list A) (i : Z) (k n : nat).

Lemma normalize_index_nonneg n i :
  0 ≤ i < Z.of_nat n → normalize_index n i = inr (Z.to_nat i).
Proof. intros Hi. unfold normalize_index. by rewrite decide_True. Qed.

Lemma normalize_index_wrap n i :
  - Z.of_nat n ≤ i < 0 →
  normalize_index n i = inr (Z.to_nat (i + Z.of_nat n)).
Proof.
  intros Hi. unfold normalize_index.
  rewrite decide_False by lia. by rewrite decide_True.
Qed.

Lemma normalize_index_outside n i :
  i < - Z.of_nat n ∨ Z.of_nat n ≤ i → normalize_index n i = inl IndexError.
Proof.
  intros Hi. unfold normalize_index.
  rewrite decide_False by lia. by rewrite decide_False by lia.
Qed.

Lemma normalize_index_lt n i k : normalize_index n i = inr k → (k < n)%nat.
Proof.
  unfold normalize_index. repeat case_decide; intros [= <-]; lia.
Qed.

Lemma getitem_nonneg a i x :
  0 ≤ i → a !! Z.to_nat i = Some x → getitem a i = inr x.
Proof.
  intros Hi Hx. unfold getitem.
  rewrite normalize_index_nonneg; [cbn; by rewrite Hx |].
  apply lookup_lt_Some in Hx. lia.
Qed.

Lemma getitem_wrap a i :
  - Z.of_nat (length a) ≤ i < 0 →
  getitem a i = getitem a (i + Z.of_nat (length a)).
Proof.
  intros Hi. unfold getitem.
  rewrite normalize_index_wrap by done.
  by rewrite normalize_index_nonneg by lia.
Qed.

Lemma getitem_outside a i :
  i < - Z.of_nat (length a) ∨ Z.of_nat (length a) ≤ i →
  getitem a i = inl IndexError.
Proof.
  intros Hi. unfold getitem. by rewrite normalize_index_outside.
Qed.

Lemma getitem_inr a i x :
  getitem a i = inr x →
  ∃ k, normalize_index (length a) i = inr k ∧ a !! k = Some x.
Proof.
  unfold getitem. destruct (normalize_index (length a) i) as [e|k]; [done|].
  cbn. destruct (a !! k) as [y|] eqn:Hk; [|done].
  intros [= <-]. eauto.
Qed.
End indexing.

(** ** [np.argmax] and [np.max] *)

Section maxima.
Context {R : Type} `{ScalarOrder R}.
Implicit Types (row pre xs : list R) (x best m : R).

Lemma ltb_asym x y : ltb x y = true → ltb y x = false.
Proof.
  intros Hxy. destruct (ltb y x) eqn:Hyx; [|done].
  by rewrite <-(ltb_irrefl x), (ltb_trans x y x).
Qed.

(** A later entry that beats the running best beats everything the best
    was not smaller than. *)
Lemma ltb_le_lt x y z : ltb y x = false → ltb y z = true → ltb x z = true.
Proof.
  intros Hyx Hyz. destruct (ltb x z) eqn:Hxz; [done|].
  by rewrite (ltb_negtrans y x z) in Hyz.
Qed.

Lemma argmax_scan_first_max xs : ∀ pre best_i best,
  first_max pre best_i best →
  ∃ m, first_max (pre ++ xs) (argmax_scan xs (length pre) best_i best) m ∧
       m = foldl maximum best xs.
Proof.
  induction xs as [|x xs IH]; intros pre best_i best (Hbest & Hmax & Hfirst).
  { exists best. rewrite app_nil_r. by repeat split. }
  cbn [argmax_scan foldl]. unfold maximum at 2.
  replace (pre ++ x :: xs) with ((pre ++ [x]) ++ xs) by by rewrite <-app_assoc.
  replace (S (length pre)) with (length (pre ++ [x]))
    by (rewrite length_app; cbn; lia).
  destruct (ltb best x) eqn:Hlt; apply IH; repeat split.
  - by rewrite lookup_app_r, Nat.sub_diag.
  - intros j y Hj. apply lookup_app_Some in Hj as [Hj|[_ Hj]].
    + apply ltb_asym. eapply ltb_le_lt; [by eapply Hmax | done].
    + apply list_lookup_singleton_Some in Hj as [_ <-]. apply ltb_irrefl.
  - intros j y Hlen Hj. rewrite lookup_app_l in Hj by done.
    eapply ltb_le_lt; [by eapply Hmax | done].
  - rewrite lookup_app_l; [done | by eapply lookup_lt_Some].
  - intros j y Hj. apply lookup_app_Some in Hj as [Hj|[_ Hj]].
    + by eapply Hmax.
    + by apply list_lookup_singleton_Some in Hj as [_ <-].
  - intros j y Hlen Hj. apply lookup_app_Some in Hj as [Hj|[Hge _]].
    + by eapply Hfirst.
    + apply lookup_lt_Some in Hbest. lia.
Qed.

Lemma first_max_head x : first_max [x] 0 x.
Proof.
  repeat split; [|lia].
  intros j y Hj. apply list_lookup_singleton_Some in Hj as [_ <-].
  apply ltb_irrefl.
Qed.

(** [np.argmax] and [np.max] agree on every non-empty row: the one returns
    the first position of the maximum, the other the entry there. *)
Lemma np_argmax_max row :
  row ≠ [] →
  ∃ k m, np_argmax row = inr (Z.of_nat k) ∧ np_max row = inr m ∧
         first_max row k m.
Proof.
  destruct row as [|x xs]; [done|]. intros _.
  destruct (argmax_scan_first_max xs [x] 0%nat x (first_max_head x))
    as (m & Hm & ->).
  exists (argmax_scan xs 1 0 x), (foldl maximum x xs).
  split; [done|]. split; [done|]. exact Hm.
Qed.

Lemma first_max_unique row k1 k2 m1 m2 :
  first_max row k1 m1 → first_max row k2 m2 → k1 = k2.
Proof.
  intros (H1 & Hmax1 & Hfirst1) (H2 & Hmax2 & Hfirst2).
  destruct (Nat.lt_trichotomy k1 k2) as [Hlt|[->|Hlt]]; [|done|].
  - specialize (Hfirst2 _ _ Hlt H1). specialize (Hmax1 _ _ H2). congruence.
  - specialize (Hfirst1 _ _ Hlt H2). specialize (Hmax2 _ _ H1). congruence.
Qed.
End maxima.

(** ** Shapes *)

Section shapes.
Context {R : Type} `{Scalar R}.
Implicit Types (q : list (list R)) (row : list R) (self : QLearningAgent R).

Lemma argmax_scan_lt (xs : list R) : ∀ i best_i best,
  (best_i < i)%nat → (argmax_scan xs i best_i best < i + length xs)%nat.
Proof.
  induction xs as [|x xs IH]; intros i best_i best Hlt; cbn; [lia|].
  destruct (ltb best x).
  - specialize (IH (S i) i x). lia.
  - specialize (IH (S i) best_i best). lia.
Qed.

Lemma np_argmax_range row :
  row ≠ [] →
  ∃ k, np_argmax row = inr (Z.of_nat k) ∧ (k < length row)%nat.
Proof.
  destruct row as [|x xs]; [done|]. intros _.
  exists (argmax_scan xs 1 0 x). split; [done|].
  pose proof (argmax_scan_lt xs 1 0 x). cbn. lia.
Qed.

Lemma has_shape_row rows cols q i row :
  has_shape rows cols q → q !! i = Some row → length row = cols.
Proof.
  intros [_ Hrows] Hi. by apply (Forall_lookup_1 _ _ _ _ Hrows Hi).
Qed.

Lemma has_shape_insert rows cols q i row :
  has_shape rows cols q → length row = cols →
  has_shape rows cols (<[i := row]> q).
Proof.
  intros [Hlen Hrows] Hrow. split; [by rewrite length_insert|].
  by apply Forall_insert.
Qed.

Lemma np_zeros_inr `{Machine} (rows cols : Z) (q : list (list R)) :
  np_zeros rows cols = inr q →
  0 ≤ rows ∧ 0 ≤ cols ∧
  q = replicate (Z.to_nat rows) (replicate (Z.to_nat cols) zero).
Proof.
  unfold np_zeros. repeat case_decide; try done.
  destruct (can_allocate _); [|done]. intros [= <-]. repeat split; lia.
Qed.

Lemma wf_agent_row self s :
  wf_agent self → 0 ≤ s < _num_states self →
  ∃ row, _Q self !! Z.to_nat s = Some row ∧
         getitem (_Q self) s = inr row ∧
         length row = Z.to_nat (_num_actions self).
Proof.
  intros (Hs & Ha & Hshape) Hrange.
  destruct (lookup_lt_is_Some_2 (_Q self) (Z.to_nat s)) as [row Hrow].
  { destruct Hshape as [-> _]. lia. }
  exists row. split; [done|]. split.
  - apply getitem_nonneg; [lia | done].
  - by eapply has_shape_row.
Qed.

Lemma greedy_action_row self s row :
  _last_state self = Some s → getitem (_Q self) s = inr row →
  _greedy_action self = np_argmax row.
Proof. intros Hs Hrow. unfold _greedy_action. by rewrite Hs, Hrow. Qed.
End shapes.

(** ** The sample instances satisfy the laws *)

#[global] Instance Q_scalar_order : ScalarOrder Q.
Proof.
  split; cbn.
  - intros x. apply negb_false_iff, Qle_bool_iff, Qle_refl.
  - intros x y z Hxy%negb_true_iff Hyz%negb_true_iff.
    apply negb_true_iff, not_true_iff_false. rewrite Qle_bool_iff.
    apply Qlt_not_le. eapply Qlt_trans; apply Qnot_le_lt;
      rewrite <-Qle_bool_iff; by apply not_true_iff_false.
  - intros x y z Hxy%negb_false_iff Hyz%negb_false_iff.
    apply negb_false_iff, Qle_bool_iff.
    eapply Qle_trans; by apply Qle_bool_iff.
Qed.

Lemma lcg_next_range g : 0 ≤ lcg_next g < 2 ^ 31.
Proof. unfold lcg_next. by apply Z.mod_pos_bound. Qed.

#[global] Instance lcg_spec : GeneratorSpec Q Z.
Proof.
  split; cbn.
  - intros g. apply negb_false_iff, Qle_bool_iff.
    unfold Qle. cbn. pose proof (lcg_next_range g). lia.
  - intros n g Hn. by apply Z.mod_pos_bound.
Qed.

Lemma fresh_agent_wf : wf_agent fresh_agent.
Proof. repeat split; cbn; [lia | lia | by repeat constructor]. Qed.

Lemma trained_agent_wf : wf_agent trained_agent.
Proof. repeat split; cbn; [lia | lia | by repeat constructor]. Qed.

(** ** The store *)

Lemma store_insert {G} (h : store G) (l : ref) (g : G) : <[l := g]> h l = g.
Proof. apply (fn_lookup_insert (A:=nat)). Qed.

Lemma store_insert_ne {G} (h : store G) (l l' : ref) (g : G) :
  l' ≠ l → <[l := g]> h l' = h l'.
Proof. intros Hl. by apply (fn_lookup_insert_ne (A:=nat)). Qed.

(** ** The policy *)

Section policy.
Context {R G : Type} `{Scalar R, Generator R G, Machine}.
Context `{!ScalarOrder R, !GeneratorSpec R G}.
Implicit Types (self : QLearningAgent R) (h : store G).

(** C9. With a table of the constructor's shape, at least one action and
    the cursor on a state in range, [act] raises nothing in either mode and
    from any store: the action it returns lies in [0, num_actions), the
    agent it leaves differs from the one it found in [last_action] alone,
    which holds the returned action, and no generator but the agent's own
    is advanced. *)
Theorem act_in_range self s h :
  wf_agent self → 0 < _num_actions self →
  _last_state self = Some s → 0 ≤ s < _num_states self →
  ∃ k, (act self h).1 = inr (k, set_last_action self k) ∧
       0 ≤ k < _num_actions self ∧
       _last_action (base (set_last_action self k)) = Some k ∧
       ∀ l, l ≠ _rng self → (act self h).2 l = h l.
Proof.
  intros Hwf Hact Hstate Hs.
  destruct (wf_agent_row self s Hwf Hs) as (row & _ & Hrow & Hlen).
  destruct (np_argmax_range row) as (k & Hk & Hklen).
  { intros ->. cbn in Hlen. lia. }
  pose proof (greedy_action_row self s row Hstate Hrow) as Hgreedy.
  unfold act. destruct (eval_mode (base self)).
  { exists (Z.of_nat k). rewrite Hgreedy, Hk. cbn. repeat split; lia. }
  unfold _epsilon_greedy_action, rng_random.
  destruct (gen_random (h (_rng self))) as [u g1].
  destruct (ltb u (_exploration_rate self)).
  - unfold rng_randint. rewrite decide_False by lia. cbn.
    pose proof (gen_below_range (_num_actions self) g1 Hact) as Hrange.
    destruct (gen_below (_num_actions self) g1) as [k' g2]. cbn in *.
    exists k'. repeat split; try lia.
    intros l Hl. by rewrite store_insert_ne.
  - exists (Z.of_nat k). rewrite Hgreedy, Hk. cbn. repeat split; try lia.
    intros l Hl. by rewrite store_insert_ne.
Qed.
End policy.

Section modes.
Context {R G : Type} `{Scalar R, Generator R G, Machine}.
Context `{!ScalarOrder R, !GeneratorSpec R G}.
Implicit Types (self : QLearningAgent R) (h : store G).

(** C2. In evaluation mode, with the cursor on a state in range of a table
    of the constructor's shape with at least one action, [act] returns the
    first position of the maximum of the cursor's row: no entry of the row
    is greater than the entry there and every earlier entry is strictly
    smaller. The action is the same from every store, the store is left
    as it was, and calling [act] again on the resulting agent returns the
    same action. *)
Theorem act_eval_first_max self s :
  wf_agent self → 0 < _num_actions self →
  eval_mode (base self) = true →
  _last_state self = Some s → 0 ≤ s < _num_states self →
  ∃ (k : nat) (row : list R) (m : R),
    _Q self !! Z.to_nat s = Some row ∧ first_max row k m ∧
    ∀ h, act self h = (inr (Z.of_nat k, set_last_action self (Z.of_nat k)), h) ∧
         act (set_last_action self (Z.of_nat k)) h =
           (inr (Z.of_nat k, set_last_action self (Z.of_nat k)), h).
Proof.
  intros Hwf Hact Heval Hstate Hs.
  destruct (wf_agent_row self s Hwf Hs) as (row & Hlook & Hrow & Hlen).
  destruct (np_argmax_max row) as (k & m & Hk & _ & Hmax).
  { intros ->. cbn in Hlen. lia. }
  pose proof (greedy_action_row self s row Hstate Hrow) as Hgreedy.
  exists k, row, m. split; [done|]. split; [done|]. intros h.
  unfold act. cbn. rewrite Heval.
  change (_greedy_action (set_last_action self (Z.of_nat k)))
    with (_greedy_action self).
  by rewrite Hgreedy, Hk.
Qed.

(** C8. With an exploration rate of zero the coin flip [random() < 0]
    never succeeds, so [act] in training mode takes the greedy branch: it
    returns what [act] in evaluation mode returns (the same action, or the
    same exception), and the agents the two calls leave differ in the flag
    alone. Training mode still advances the generator by the one draw. *)
Theorem act_epsilon_zero self h :
  _exploration_rate self = zero →
  fst <$> (act (set_eval_mode self false) h).1 =
    fst <$> (act (set_eval_mode self true) h).1 ∧
  (λ p, (p.1, set_eval_mode p.2 true)) <$>
      (act (set_eval_mode self false) h).1 =
    (act (set_eval_mode self true) h).1.
Proof.
  intros Heps. unfold act, _epsilon_greedy_action, rng_random. cbn.
  pose proof (gen_random_nonneg (h (_rng self))) as Hdraw.
  destruct (gen_random (h (_rng self))) as [u g1]. cbn in Hdraw.
  rewrite Heps, Hdraw.
  change (_greedy_action (set_eval_mode self false))
    with (_greedy_action self).
  change (_greedy_action (set_eval_mode self true))
    with (_greedy_action self).
  by destruct (_greedy_action self).
Qed.

(** C10. [learn] never reads the evaluation-mode flag: run with the flag on
    it raises the same exception, or leaves the same table and the same
    cursor, as run with the flag off, the flag itself staying as it was;
    and in neither mode does the call touch the store of generators. *)
Theorem learn_ignores_eval_mode self (reward : R) (observation : Z) h :
  learn (set_eval_mode self true) reward observation =
    (λ a, set_eval_mode a true) <$>
      learn (set_eval_mode self false) reward observation ∧
  ∀ b, (step (Learn reward observation) (set_eval_mode self b) h).2 = h.
Proof.
  split; [|done]. unfold learn, get_last_action. cbn.
  destruct (_last_action (base self)) as [a|]; [|done]. cbn.
  destruct (getitem (_Q self) observation) as [e|row]; [done|]. cbn.
  destruct (np_max row) as [e|best]; [done|]. cbn.
  by destruct (update_Q _ _ _ _ _).
Qed.
End modes.

(** ** The update *)

Section update.
Context {R : Type} `{Scalar R}.
Implicit Types (q : list (list R)) (row : list R) (self : QLearningAgent R).

Lemma cell_insert_eq q i j row x :
  q !! i = Some row → (j < length row)%nat →
  cell (<[i := <[j := x]> row]> q) i j = Some x.
Proof.
  intros Hi Hj. unfold cell.
  rewrite list_lookup_insert_eq by by eapply lookup_lt_Some.
  cbn. by rewrite list_lookup_insert_eq.
Qed.

Lemma cell_insert_ne q i j i' j' row x :
  q !! i = Some row → (i', j') ≠ (i, j) →
  cell (<[i := <[j := x]> row]> q) i' j' = cell q i' j'.
Proof.
  intros Hi Hne. unfold cell. destruct (decide (i' = i)) as [->|Hi'].
  - rewrite list_lookup_insert_eq by by eapply lookup_lt_Some.
    rewrite Hi. cbn. apply list_lookup_insert_ne. congruence.
  - by rewrite list_lookup_insert_ne.
Qed.

(** [learn] on indices in range: every lookup succeeds and one cell of the
    table is replaced. *)
Lemma learn_in_range self s a row old next_row best reward s' :
  _last_state self = Some s → _last_action (base self) = Some a →
  0 ≤ s → 0 ≤ a → 0 ≤ s' →
  _Q self !! Z.to_nat s = Some row → row !! Z.to_nat a = Some old →
  _Q self !! Z.to_nat s' = Some next_row → np_max next_row = inr best →
  learn self reward s' =
    inr (set_last_state
           (set_Q self
              (<[Z.to_nat s :=
                   <[Z.to_nat a :=
                       td_update (_learning_rate self)
                         (add reward (mul (_discount_factor self) best)) old]>
                     row]> (_Q self)))
           s').
Proof.
  intros Hstate Haction Hs Ha Hs' Hrow Hold Hnext Hbest.
  unfold learn, get_last_action. rewrite Haction. cbn.
  rewrite (getitem_nonneg _ _ _ Hs' Hnext). cbn. rewrite Hbest. cbn.
  rewrite Hstate. unfold update_Q.
  rewrite normalize_index_nonneg
    by (apply lookup_lt_Some in Hrow; lia). cbn.
  rewrite (getitem_nonneg _ _ _ Hs Hrow). cbn.
  rewrite normalize_index_nonneg
    by (apply lookup_lt_Some in Hold; lia). cbn.
  by rewrite (getitem_nonneg _ _ _ Ha Hold).
Qed.

(** The update keeps the shape of the table, whichever branch it takes. *)
Lemma update_Q_shape rows cols q last_state last_action (alpha target : R) q' :
  has_shape rows cols q →
  update_Q q last_state last_action alpha target = inr q' →
  has_shape rows cols q'.
Proof.
  intros Hshape. unfold update_Q. destruct last_state as [s|].
  - destruct (normalize_index (length q) s) as [e|i]; [done|]. cbn.
    destruct (getitem q s) as [e|row] eqn:Hrow; [done|]. cbn.
    destruct (normalize_index (length row) last_action) as [e|j]; [done|].
    cbn. destruct (getitem row last_action) as [e|old]; [done|]. cbn.
    intros [= <-]. apply getitem_inr in Hrow as (k & _ & Hk).
    apply has_shape_insert; [done|]. rewrite length_insert.
    by eapply has_shape_row.
  - destruct (normalize_index (length q) last_action) as [e|i]; [done|]. cbn.
    destruct (getitem q last_action) as [e|row] eqn:Hrow; [done|]. cbn.
    intros [= <-]. apply getitem_inr in Hrow as (k & _ & Hk).
    apply has_shape_insert; [done|]. rewrite length_fmap.
    by eapply has_shape_row.
Qed.

Lemma learn_wf self (reward : R) (observation : Z) self' :
  wf_agent self → learn self reward observation = inr self' → wf_agent self'.
Proof.
  intros (Hs & Ha & Hshape). unfold learn.
  destruct (get_last_action (base self)) as [e|a]; [done|]. cbn.
  destruct (getitem (_Q self) observation) as [e|row]; [done|]. cbn.
  destruct (np_max row) as [e|best]; [done|]. cbn.
  destruct (update_Q _ _ _ _ _) as [e|q'] eqn:Hq'; [done|]. cbn.
  intros [= <-]. repeat split; cbn; try done;
    by apply (update_Q_shape _ _ _ _ _ _ _ _ Hshape Hq').
Qed.

Context `{!ScalarOrder R}.

(** C1. On a table of the constructor's shape, with the cursor on state
    [s], the recorded action [a] and the observation [s'] all in range,
    [learn(r, s')] raises nothing; it replaces the entry [Q[s, a]] by
    [Q[s, a] + α * ((r + γ * best) - Q[s, a])], computed with the table's
    own arithmetic on the old entries, where [best] is the maximum of row
    [s'] of the old table; it leaves every other cell as it was; and it
    moves the cursor to [s'], so that the next greedy choice is the
    [np.argmax] of row [s'] of the new table. *)
Theorem learn_td_update self s a (reward : R) s' :
  wf_agent self →
  _last_state self = Some s → _last_action (base self) = Some a →
  0 ≤ s < _num_states self → 0 ≤ a < _num_actions self →
  0 ≤ s' < _num_states self →
  ∃ self' old next_row k best,
    learn self reward s' = inr self' ∧
    cell (_Q self) (Z.to_nat s) (Z.to_nat a) = Some old ∧
    _Q self !! Z.to_nat s' = Some next_row ∧ first_max next_row k best ∧
    cell (_Q self') (Z.to_nat s) (Z.to_nat a) =
      Some (add old
              (mul (_learning_rate self)
                 (sub (add reward (mul (_discount_factor self) best)) old))) ∧
    (∀ i j, (i, j) ≠ (Z.to_nat s, Z.to_nat a) →
            cell (_Q self') i j = cell (_Q self) i j) ∧
    _last_state self' = Some s' ∧
    ∃ row', _Q self' !! Z.to_nat s' = Some row' ∧
            _greedy_action self' = np_argmax row'.
Proof.
  intros Hwf Hstate Haction Hs Ha Hs'.
  destruct (wf_agent_row self s Hwf Hs) as (row & Hrow & _ & Hlen).
  destruct (wf_agent_row self s' Hwf Hs') as (next_row & Hnext & _ & Hlen').
  destruct (lookup_lt_is_Some_2 row (Z.to_nat a)) as [old Hold]; [lia|].
  destruct (np_argmax_max next_row) as (k & best & _ & Hbest & Hmax).
  { intros ->. cbn in Hlen'. lia. }
  eexists _, old, next_row, k, best.
  split; [by eapply learn_in_range; eauto; lia|].
  split; [unfold cell; by rewrite Hrow|].
  split; [done|]. split; [done|]. cbn.
  split; [apply cell_insert_eq; [done | by eapply lookup_lt_Some]|].
  split; [intros i j Hne; by apply cell_insert_ne|].
  split; [done|].
  destruct (lookup_lt_is_Some_2
              (<[Z.to_nat s := <[Z.to_nat a :=
                   td_update (_learning_rate self)
                     (add reward (mul (_discount_factor self) best)) old]>
                 row]> (_Q self)) (Z.to_nat s')) as [row' Hrow'].
  { rewrite length_insert. by eapply lookup_lt_Some. }
  exists row'. split; [done|].
  by rewrite (getitem_nonneg _ _ _ (proj1 Hs') Hrow').
Qed.
End update.

(** ** Scripts and the store *)

Section scripts.
Context {R G : Type} `{Scalar R, Generator R G, Machine}.
Implicit Types (self : QLearningAgent R) (h : store G) (c : call R).

(** No call rebinds [_rng]. *)
Lemma step_rng c self h out self' h' :
  step c self h = (inr (out, self'), h') → _rng self' = _rng self.
Proof.
  destruct c; cbn.
  - unfold seed. destruct (rng_seed s); cbn; [done|]. by intros [= <- <- <-].
  - by intros [= <- <- <-].
  - by intros [= <- <- <-].
  - unfold act.
    destruct (if eval_mode (base self) then _ else _) as [[e|k] h''];
      cbn; [done|]. by intros [= <- <- <-].
  - destruct (learn self reward observation) as [e|a] eqn:Hlearn; [done|].
    cbn. intros [= <- <- <-]. unfold learn in Hlearn.
    destruct (get_last_action _); [done|]. cbn in Hlearn.
    destruct (getitem _ _); [done|]. cbn in Hlearn.
    destruct (np_max _); [done|]. cbn in Hlearn.
    destruct (update_Q _ _ _ _ _); [done|]. by injection Hlearn as <-.
Qed.

(** Every call keeps the table in the constructor's shape. *)
Lemma step_wf c self h out self' h' :
  wf_agent self → step c self h = (inr (out, self'), h') → wf_agent self'.
Proof.
  intros Hwf. destruct c; cbn.
  - unfold seed. destruct (rng_seed s); cbn; [done|]. by intros [= <- <- <-].
  - by intros [= <- <- <-].
  - by intros [= <- <- <-].
  - unfold act.
    destruct (if eval_mode (base self) then _ else _) as [[e|k] h''];
      cbn; [done|]. by intros [= <- <- <-].
  - destruct (learn self reward observation) as [e|a] eqn:Hlearn; [done|].
    cbn. intros [= <- <- <-]. by eapply learn_wf.
Qed.



End scripts.


(** ** Construction *)

Section construction.
Context {R G : Type} `{Scalar R, Generator R G, Machine}.
Implicit Types (self : QLearningAgent R) (h : store G).

Lemma init_inr (num_actions num_states : Z) (alpha epsilon gamma : R) self :
  __init__ num_actions num_states alpha epsilon gamma = inr self →
  base self = Agent__init__ ∧ _num_actions self = num_actions ∧
  _num_states self = num_states ∧ _exploration_rate self = epsilon ∧
  _last_state self = None ∧ _rng self = np_random ∧
  np_zeros num_states num_actions = inr (_Q self).
Proof.
  unfold __init__. destruct (np_zeros num_states num_actions) as [e|q];
    [done|]. cbn. by intros [= <-].
Qed.

(** The constructor establishes the shape that every method preserves. *)
Lemma init_wf (num_actions num_states : Z) (alpha epsilon gamma : R) self :
  __init__ num_actions num_states alpha epsilon gamma = inr self →
  wf_agent self.
Proof.
  intros Hinit.
  destruct (init_inr _ _ _ _ _ _ Hinit) as (_ & Ha & Hs & _ & _ & _ & Hq).
  apply np_zeros_inr in Hq as (Hrows & Hcols & Hq).
  unfold wf_agent. rewrite Ha, Hs, Hq.
  split; [lia|]. split; [lia|]. split; [by rewrite length_replicate|].
  apply Forall_replicate. by rewrite length_replicate.
Qed.

(** A table with a dimension of zero has no cell. *)
Lemma cell_empty_table (rows cols : nat) i j :
  rows = 0%nat ∨ cols = 0%nat →
  cell (replicate rows (replicate cols (zero : R))) i j = None.
Proof.
  intros Hdim. unfold cell.
  destruct (replicate rows (replicate cols zero) !! i) as [row|] eqn:Hrow;
    [|done]. cbn.
  apply lookup_replicate in Hrow as [-> Hi].
  destruct Hdim as [->| ->]; [lia | done].
Qed.

(** C7, as the code has it. The constructor validates nothing itself. A
    negative [num_states] or [num_actions] is rejected by [np.zeros] with
    [ValueError]. Zero is not rejected: when either is zero, the other
    being below 2^60 and the machine granting the empty buffer, the
    constructor returns an agent whose table has no cell. *)
Theorem init_dimensions (num_actions num_states : Z) (alpha epsilon gamma : R) :
  (num_actions < 0 ∨ num_states < 0 →
   __init__ num_actions num_states alpha epsilon gamma = inl ValueError) ∧
  (0 ≤ num_actions < 2 ^ 60 → 0 ≤ num_states < 2 ^ 60 →
   num_actions = 0 ∨ num_states = 0 → can_allocate 0 = true →
   ∃ self, __init__ num_actions num_states alpha epsilon gamma = inr self ∧
           _Q self = replicate (Z.to_nat num_states)
                       (replicate (Z.to_nat num_actions) zero) ∧
           ∀ i j, cell (_Q self) i j = None).
Proof.
  unfold __init__, np_zeros. split.
  - intros Hdim. by rewrite decide_True by lia.
  - intros Ha Hs Hzero Halloc. rewrite decide_False by lia.
    rewrite decide_False
      by (unfold itemsize, skip_zero; repeat case_decide; lia).
    replace (itemsize * num_states * num_actions) with 0
      by (destruct Hzero as [->| ->]; lia).
    rewrite Halloc. cbn. eexists. split; [done|]. split; [done|].
    intros i j. apply cell_empty_table. lia.
Qed.
End construction.

(** C7 fails for zero: [QLearningAgent(3, 0)] and [QLearningAgent(0, 2)]
    are constructed, with an empty table. *)
Lemma init_accepts_zero :
  __init__ (R:=Q) 3 0 (1 # 2)%Q (1 # 10)%Q (99 # 100)%Q =
    inr {| base := Agent__init__; _num_actions := 3; _num_states := 0;
           _learning_rate := (1 # 2)%Q; _exploration_rate := (1 # 10)%Q;
           _discount_factor := (99 # 100)%Q; _last_state := None;
           _rng := np_random; _Q := [] |} ∧
  __init__ (R:=Q) 0 2 (1 # 2)%Q (1 # 10)%Q (99 # 100)%Q =
    inr {| base := Agent__init__; _num_actions := 0; _num_states := 2;
           _learning_rate := (1 # 2)%Q; _exploration_rate := (1 # 10)%Q;
           _discount_factor := (99 # 100)%Q; _last_state := None;
           _rng := np_random; _Q := [[]; []] |}.
Proof. split; reflexivity. Qed.

(** The limits of [np.zeros] at the sample machine: a shape whose byte
    count exceeds the index type is a [ValueError], one that fits the index
    type but not the memory is a [MemoryError]. *)
Example init_too_large :
  __init__ (R:=Q) (2 ^ 62) (2 ^ 62) (1 # 2)%Q (1 # 10)%Q (99 # 100)%Q =
    inl ValueError ∧
  __init__ (R:=Q) (10 ^ 6) (10 ^ 6) (1 # 2)%Q (1 # 10)%Q (99 # 100)%Q =
    inl MemoryError.
Proof. split; reflexivity. Qed.

Lemma init_dimensions_witness :
  __init__ (R:=Q) 3 (-1) (1 # 2)%Q (1 # 10)%Q (99 # 100)%Q = inl ValueError ∧
  ∃ self, __init__ (R:=Q) 3 0 (1 # 2)%Q (1 # 10)%Q (99 # 100)%Q = inr self ∧
          _Q self = replicate (Z.to_nat 0) (replicate (Z.to_nat 3) zero) ∧
          ∀ i j, cell (_Q self) i j = None.
Proof.
  split.
  - apply (init_dimensions (R:=Q) 3 (-1)). right. lia.
  - apply (init_dimensions (R:=Q) 3 0); [lia | lia | by right | reflexivity].
Defined.

(** ** Before the first episode *)

Section unset_cursor.
Context {R G : Type} `{Scalar R, Generator R G, Machine}.
Context `{!ScalarOrder R, !GeneratorSpec R G}.
Implicit Types (self : QLearningAgent R) (h : store G).







End unset_cursor.



(** ** The shared generator *)

Section sharing.
Context {R G : Type} `{Scalar R, Generator R G, Machine}.
Implicit Types (self : QLearningAgent R) (h : store G).

(** C5, as the code has it. No agent has a generator of its own: the
    constructor binds [_rng] to the module [np.random], so any two agents
    constructed in a process hold the same reference. Seeding through
    either one is the same operation on the store, and after a successful
    [seed] on the first the generator that the second draws from is the
    freshly seeded one. *)
Theorem agents_share_generator
    (num_actions1 num_states1 : Z) (alpha1 epsilon1 gamma1 : R)
    (num_actions2 num_states2 : Z) (alpha2 epsilon2 gamma2 : R)
    (a1 a2 : QLearningAgent R) :
  __init__ num_actions1 num_states1 alpha1 epsilon1 gamma1 = inr a1 →
  __init__ num_actions2 num_states2 alpha2 epsilon2 gamma2 = inr a2 →
  _rng a1 = np_random ∧ _rng a2 = np_random ∧
  ∀ (s : Z) h,
    seed a1 s h = seed a2 s h ∧
    ∀ g : G, rng_seed s = inr g → (seed a1 s h).2 (_rng a2) = g.
Proof.
  intros (_ & _ & _ & _ & _ & Hrng1 & _)%init_inr
         (_ & _ & _ & _ & _ & Hrng2 & _)%init_inr.
  split; [done|]. split; [done|]. intros s h. unfold seed.
  rewrite Hrng1, Hrng2. split; [done|].
  intros g ->. cbn. apply store_insert.
Qed.
End sharing.

(** C5 fails: with [fresh_agent] and [exploring_agent] in one process,
    both holding the reference the constructor gives, seeding the first
    replaces the state of the generator the second draws from, and the
    second's next action changes from 2 to 0. *)
Lemma seed_changes_other_agents_stream :
  __init__ 3 2 (1 # 2)%Q (1 # 10)%Q (99 # 100)%Q = inr fresh_agent ∧
  (λ a, begin_episode a 0) <$> __init__ 3 2 (1 # 2)%Q 1%Q (99 # 100)%Q =
    inr exploring_agent ∧
  _rng fresh_agent = _rng exploring_agent ∧
  (seed fresh_agent 7 sample_store).2 (_rng exploring_agent) ≠
    sample_store (_rng exploring_agent) ∧
  fst <$> (act exploring_agent sample_store).1 = inr 2 ∧
  fst <$> (act exploring_agent (seed fresh_agent 7 sample_store).2).1 = inr 0.
Proof. repeat split; vm_compute; congruence. Qed.

Lemma agents_share_generator_witness :
  _rng fresh_agent = np_random ∧ _rng fresh_agent = np_random ∧
  ∀ (s : Z) (h : store Z),
    seed fresh_agent s h = seed fresh_agent s h ∧
    ∀ g : Z, rng_seed s = inr g → (seed fresh_agent s h).2 (_rng fresh_agent) = g.
Proof.
  apply (agents_share_generator
           3 2 (1 # 2)%Q (1 # 10)%Q (99 # 100)%Q
           3 2 (1 # 2)%Q (1 # 10)%Q (99 # 100)%Q); reflexivity.
Defined.

(** ** Observations out of range *)

Section observations.
Context {R G : Type} `{Scalar R, Generator R G, Machine}.
Implicit Types (self : QLearningAgent R) (h : store G).


End observations.



(** ** The theorems at the sample agents *)

Lemma cautious_agent_wf : wf_agent cautious_agent.
Proof. repeat split; cbn; [lia | lia | by repeat constructor]. Qed.

(** One update worked out: from state 0 with action 1, reward 1 and next
    state 1, the entry 1/2 becomes 1/2 + 1/2 * ((1 + 99/100 * 2) - 1/2). *)
Example learn_trained_agent :
  learn trained_agent 1%Q 1 =
    inr (set_last_state
           (set_Q trained_agent [[0; 1392 # 800; 1 # 2]; [1; 2; 2]]%Q) 1).
Proof. vm_compute. reflexivity. Qed.

(** A tie in row 0 between actions 1 and 2 goes to action 1. *)
Example act_trained_agent_tie :
  (act (set_eval_mode trained_agent true) sample_store).1 =
    inr (1, set_last_action (set_eval_mode trained_agent true) 1).
Proof. vm_compute. reflexivity. Qed.

Lemma learn_td_update_witness :
  ∃ self' old next_row k best,
    learn trained_agent 1%Q 1 = inr self' ∧
    cell (_Q trained_agent) (Z.to_nat 0) (Z.to_nat 1) = Some old ∧
    _Q trained_agent !! Z.to_nat 1 = Some next_row ∧
    first_max next_row k best ∧
    cell (_Q self') (Z.to_nat 0) (Z.to_nat 1) =
      Some (add old
              (mul (_learning_rate trained_agent)
                 (sub (add 1%Q (mul (_discount_factor trained_agent) best))
                    old))) ∧
    (∀ i j, (i, j) ≠ (Z.to_nat 0, Z.to_nat 1) →
            cell (_Q self') i j = cell (_Q trained_agent) i j) ∧
    _last_state self' = Some 1 ∧
    ∃ row', _Q self' !! Z.to_nat 1 = Some row' ∧
            _greedy_action self' = np_argmax row'.
Proof.
  apply (learn_td_update trained_agent 0 1 1%Q 1).
  - apply trained_agent_wf.
  - reflexivity.
  - reflexivity.
  - cbn. lia.
  - cbn. lia.
  - cbn. lia.
Defined.

Lemma act_eval_first_max_witness :
  ∃ (k : nat) (row : list Q) (m : Q),
    _Q (set_eval_mode trained_agent true) !! Z.to_nat 0 = Some row ∧
    first_max row k m ∧
    ∀ h : store Z,
      act (set_eval_mode trained_agent true) h =
        (inr (Z.of_nat k,
              set_last_action (set_eval_mode trained_agent true) (Z.of_nat k)),
         h) ∧
      act (set_last_action (set_eval_mode trained_agent true) (Z.of_nat k)) h =
        (inr (Z.of_nat k,
              set_last_action (set_eval_mode trained_agent true) (Z.of_nat k)),
         h).
Proof.
  apply (act_eval_first_max (set_eval_mode trained_agent true) 0).
  - apply trained_agent_wf.
  - cbn. lia.
  - reflexivity.
  - reflexivity.
  - cbn. lia.
Defined.

Lemma act_epsilon_zero_witness :
  fst <$> (act (set_eval_mode cautious_agent false) sample_store).1 =
    fst <$> (act (set_eval_mode cautious_agent true) sample_store).1 ∧
  (λ p, (p.1, set_eval_mode p.2 true)) <$>
      (act (set_eval_mode cautious_agent false) sample_store).1 =
    (act (set_eval_mode cautious_agent true) sample_store).1.
Proof.
  apply (act_epsilon_zero cautious_agent sample_store). reflexivity.
Defined.

Lemma act_in_range_witness :
  ∃ k, (act trained_agent sample_store).1 =
         inr (k, set_last_action trained_agent k) ∧
       0 ≤ k < _num_actions trained_agent ∧
       _last_action (base (set_last_action trained_agent k)) = Some k ∧
       ∀ l, l ≠ _rng trained_agent →
            (act trained_agent sample_store).2 l = sample_store l.
Proof.
  apply (act_in_range trained_agent 0 sample_store).
  - apply trained_agent_wf.
  - cbn. lia.
  - reflexivity.
  - cbn. lia.
Defined.

(** Two agents seeded alike and driven alike, but in turns within one
    process: alone, the exploring agent's first two actions are 0 and 0;
    when a second agent acts in between, the first agent's are 0 and 1,
    because each draw of one agent advances the stream of the other. *)
Example interleaved_agents_draw_from_one_stream :
  let a := exploring_agent in
  let b := exploring_agent in
  let a0 := drive [Seed 7] a sample_store in
  let b0 := drive [Seed 7] b (final_store a0) in
  let a1 := drive [Act] (final a0) (final_store b0) in
  let b1 := drive [Act] (final b0) (final_store a1) in
  let a2 := drive [Act] (final a1) (final_store b1) in
  actions (drive [Seed 7; Act; Act] a sample_store) = [0; 0] ∧
  actions a1 ++ actions a2 = [0; 1].
Proof. vm_compute. by split. Qed.

(** * Further properties of the methods *)

(** ** The greedy choice *)

Section greedy.
Context {R : Type} `{Scalar R}.
Implicit Types (self : QLearningAgent R) (row : list R).

Lemma getitem_inside {A} (a : list A) (i : Z) :
  - Z.of_nat (length a) ≤ i < Z.of_nat (length a) →
  ∃ k x, normalize_index (length a) i = inr k ∧ a !! k = Some x ∧
         getitem a i = inr x.
Proof.
  intros Hi. unfold getitem. destruct (decide (0 ≤ i)) as [Hpos|Hneg].
  - rewrite normalize_index_nonneg by lia.
    destruct (lookup_lt_is_Some_2 a (Z.to_nat i)) as [x Hx]; [lia|].
    exists (Z.to_nat i), x. cbn. by rewrite Hx.
  - rewrite normalize_index_wrap by lia.
    destruct (lookup_lt_is_Some_2 a (Z.to_nat (i + Z.of_nat (length a))))
      as [x Hx]; [lia|].
    exists (Z.to_nat (i + Z.of_nat (length a))), x. cbn. by rewrite Hx.
Qed.

Lemma normalize_index_inr n i k :
  normalize_index n i = inr k → - Z.of_nat n ≤ i < Z.of_nat n.
Proof. unfold normalize_index. repeat case_decide; [lia | lia | done]. Qed.

(** The position that the scan of [np.argmax] ends on holds the value that
    the reduction of [np.maximum] ends on: both take the same decision at
    every element. *)
Lemma argmax_scan_lookup (xs : list R) : ∀ pre best_i best,
  pre !! best_i = Some best →
  (pre ++ xs) !! argmax_scan xs (length pre) best_i best =
    Some (foldl maximum best xs).
Proof.
  induction xs as [|x xs IH]; intros pre best_i best Hbest.
  { by rewrite app_nil_r. }
  cbn [argmax_scan foldl]. unfold maximum at 2.
  replace (pre ++ x :: xs) with ((pre ++ [x]) ++ xs) by by rewrite <-app_assoc.
  replace (S (length pre)) with (length (pre ++ [x]))
    by (rewrite length_app; cbn; lia).
  destruct (ltb best x); apply IH.
  - by rewrite lookup_app_r, Nat.sub_diag.
  - rewrite lookup_app_l; [done | by eapply lookup_lt_Some].
Qed.

(** X1. The value [learn] bootstraps from is the value of the action that
    the greedy policy picks in the observed state: whenever the greedy
    choice with the cursor on [o] is [k], [np.max] of row [o] is the entry
    [k] of that row. This needs no assumption on the order. *)
Theorem target_is_greedy_value self (o : Z) row (k : Z) :
  getitem (_Q self) o = inr row →
  _greedy_action (begin_episode self o) = inr k →
  np_max row = getitem row k.
Proof.
  intros Hrow. unfold _greedy_action. cbn. rewrite Hrow. cbn.
  destruct row as [|x xs]; [done|]. cbn. intros [= <-].
  pose proof (argmax_scan_lookup xs [x] 0%nat x eq_refl) as Hk. cbn in Hk.
  symmetry. apply getitem_nonneg; [lia|]. by rewrite Nat2Z.id.
Qed.

Context `{!ScalarOrder R}.

(** X2. With the cursor on an integer state whose row is [row], the greedy
    choice is [k] exactly when [k] is the first position of a maximum of
    [row]: the property determines the action, ties included. *)
Theorem greedy_action_iff_first_max self (s : Z) row (k : nat) :
  _last_state self = Some s → getitem (_Q self) s = inr row →
  _greedy_action self = inr (Z.of_nat k) ↔ ∃ m, first_max row k m.
Proof.
  intros Hs Hrow. rewrite (greedy_action_row self s row Hs Hrow). split.
  - intros Hk. destruct (np_argmax_max row) as (k' & m & Hk' & _ & Hmax).
    { intros ->. done. }
    rewrite Hk in Hk'. injection Hk' as Hk'%Nat2Z.inj. subst k'. eauto.
  - intros [m Hmax]. destruct (np_argmax_max row) as (k' & m' & Hk' & _ & Hmax').
    { intros ->. by destruct Hmax as [? _]. }
    by rewrite (first_max_unique _ _ _ _ _ Hmax Hmax').
Qed.
End greedy.

Lemma target_is_greedy_value_witness :
  np_max [1; 2; 2]%Q = getitem [1; 2; 2]%Q 1.
Proof.
  apply (target_is_greedy_value trained_agent 1 [1; 2; 2]%Q 1); reflexivity.
Defined.

Lemma greedy_action_iff_first_max_witness :
  _greedy_action trained_agent = inr (Z.of_nat 1) ↔
  ∃ m, first_max [0; 1 # 2; 1 # 2]%Q 1 m.
Proof.
  apply (greedy_action_iff_first_max trained_agent 0); reflexivity.
Defined.

(** ** Where the methods raise *)

Section domains.
Context {R G : Type} `{Scalar R, Generator R G, Machine}.
Implicit Types (self : QLearningAgent R) (h : store G).

Lemma wf_agent_rows self :
  wf_agent self → Z.of_nat (length (_Q self)) = _num_states self.
Proof. intros (Hs & _ & -> & _). lia. Qed.

Lemma wf_agent_cols self k row :
  wf_agent self → _Q self !! k = Some row →
  Z.of_nat (length row) = _num_actions self.
Proof.
  intros (_ & Ha & Hshape) Hrow. rewrite (has_shape_row _ _ _ _ _ Hshape Hrow).
  lia.
Qed.

(** X3. The greedy choice with the cursor on an integer [s], on a table of
    the constructor's shape: [IndexError] when [s] is outside
    [-num_states, num_states); [ValueError] when [s] is inside and there is
    no action; an action in [0, num_actions) otherwise; and a negative [s]
    inside the range selects the row that [s + num_states] selects. *)
Theorem greedy_action_domain self (s : Z) :
  wf_agent self → _last_state self = Some s →
  (s < - _num_states self ∨ _num_states self ≤ s →
   _greedy_action self = inl IndexError) ∧
  (- _num_states self ≤ s < _num_states self → _num_actions self = 0 →
   _greedy_action self = inl ValueError) ∧
  (- _num_states self ≤ s < _num_states self → 0 < _num_actions self →
   ∃ k, _greedy_action self = inr k ∧ 0 ≤ k < _num_actions self) ∧
  (- _num_states self ≤ s < 0 →
   _greedy_action self =
     _greedy_action (set_last_state self (s + _num_states self))).
Proof.
  intros Hwf Hs. pose proof (wf_agent_rows self Hwf) as Hrows.
  unfold _greedy_action. cbn. rewrite Hs, <-Hrows. repeat split.
  - intros Hout. by rewrite getitem_outside.
  - intros Hin Hna. destruct (getitem_inside (_Q self) s Hin)
      as (k & row & _ & Hk & ->). cbn.
    pose proof (wf_agent_cols self k row Hwf Hk) as Hcols.
    destruct row; [done | cbn in Hcols; lia].
  - intros Hin Hna. destruct (getitem_inside (_Q self) s Hin)
      as (k & row & _ & Hk & ->). cbn.
    pose proof (wf_agent_cols self k row Hwf Hk) as Hcols.
    destruct (np_argmax_range row) as (j & -> & Hj).
    { intros ->. cbn in Hcols. lia. }
    exists (Z.of_nat j). split; [done | lia].
  - intros Hneg. by rewrite getitem_wrap.
Qed.

(** X4. [learn] with an integer cursor [s] and a recorded action [a], on a
    table of the constructor's shape, succeeds exactly when the
    observation and the cursor lie in [-num_states, num_states) and the
    action in [-num_actions, num_actions). When it fails it raises
    [ValueError] if the observation is in range and there is no action
    (the maximum of an empty row), and [IndexError] in every other case. *)
Theorem learn_domain self (s a : Z) (reward : R) (o : Z) :
  wf_agent self →
  _last_state self = Some s → _last_action (base self) = Some a →
  ((∃ self', learn self reward o = inr self') ↔
   - _num_states self ≤ o < _num_states self ∧
   - _num_states self ≤ s < _num_states self ∧
   - _num_actions self ≤ a < _num_actions self) ∧
  ∀ e, learn self reward o = inl e →
       e = if decide (- _num_states self ≤ o < _num_states self ∧
                      _num_actions self = 0)
           then ValueError else IndexError.
Proof.
  intros Hwf Hs Ha. pose proof (wf_agent_rows self Hwf) as Hrows.
  unfold learn, get_last_action. rewrite Ha, Hs. cbn.
  destruct (decide (- _num_states self ≤ o < _num_states self)) as [Ho|Ho].
  2: { rewrite (getitem_outside (_Q self) o) by lia. cbn. split.
       - split; [by intros [? ?] | intros; lia].
       - intros e [= <-]. by rewrite decide_False by lia. }
  destruct (getitem_inside (_Q self) o) as (ko & next_row & _ & Hko & ->);
    [lia|]. cbn.
  pose proof (wf_agent_cols self ko next_row Hwf Hko) as Hcols.
  destruct next_row as [|x xs].
  { cbn in Hcols. cbn. split.
    - split; [by intros [? ?] | intros; lia].
    - intros e [= <-]. by rewrite decide_True by lia. }
  cbn [np_max mbind result_bind mret result_ret]. cbn in Hcols.
  destruct (decide (- _num_states self ≤ s < _num_states self)) as [Hin|Hout].
  2: { rewrite normalize_index_outside by lia. cbn. split.
       - split; [by intros [? ?] | intros; lia].
       - intros e [= <-]. by rewrite decide_False by lia. }
  destruct (getitem_inside (_Q self) s) as (ks & row & -> & Hks & ->);
    [lia|]. cbn.
  pose proof (wf_agent_cols self ks row Hwf Hks) as Hcols'.
  destruct (decide (- _num_actions self ≤ a < _num_actions self))
    as [Hact|Hact].
  2: { rewrite normalize_index_outside by lia. cbn. split.
       - split; [by intros [? ?] | intros; lia].
       - intros e [= <-]. by rewrite decide_False by lia. }
  destruct (getitem_inside row a) as (ka & old & -> & _ & ->); [lia|]. cbn.
  split; [split; [done | eauto] | done].
Qed.
End domains.

Lemma greedy_action_domain_witness :
  (5 < - _num_states (begin_episode trained_agent 5) ∨
   _num_states (begin_episode trained_agent 5) ≤ 5 →
   _greedy_action (begin_episode trained_agent 5) = inl IndexError) ∧
  (- _num_states (begin_episode trained_agent 5) ≤ 5 <
     _num_states (begin_episode trained_agent 5) →
   _num_actions (begin_episode trained_agent 5) = 0 →
   _greedy_action (begin_episode trained_agent 5) = inl ValueError) ∧
  (- _num_states (begin_episode trained_agent 5) ≤ 5 <
     _num_states (begin_episode trained_agent 5) →
   0 < _num_actions (begin_episode trained_agent 5) →
   ∃ k, _greedy_action (begin_episode trained_agent 5) = inr k ∧
        0 ≤ k < _num_actions (begin_episode trained_agent 5)) ∧
  (- _num_states (begin_episode trained_agent 5) ≤ 5 < 0 →
   _greedy_action (begin_episode trained_agent 5) =
     _greedy_action
       (set_last_state (begin_episode trained_agent 5)
          (5 + _num_states (begin_episode trained_agent 5)))).
Proof.
  apply (greedy_action_domain (begin_episode trained_agent 5) 5).
  - apply trained_agent_wf.
  - reflexivity.
Defined.

Lemma learn_domain_witness :
  ((∃ self', learn trained_agent 1%Q (-2) = inr self') ↔
   - _num_states trained_agent ≤ -2 < _num_states trained_agent ∧
   - _num_states trained_agent ≤ 0 < _num_states trained_agent ∧
   - _num_actions trained_agent ≤ 1 < _num_actions trained_agent) ∧
  ∀ e, learn trained_agent 1%Q (-2) = inl e →
       e = if decide (- _num_states trained_agent ≤ -2 <
                        _num_states trained_agent ∧
                      _num_actions trained_agent = 0)
           then ValueError else IndexError.
Proof.
  apply (learn_domain trained_agent 0 1 1%Q (-2)).
  - apply trained_agent_wf.
  - reflexivity.
  - reflexivity.
Defined.

(** ** Exploration and empty tables *)

Section exploration.
Context {R G : Type} `{Scalar R, Generator R G, Machine}.
Context `{!GeneratorSpec R G}.
Implicit Types (self : QLearningAgent R) (h : store G).

(** X5. When the coin flip falls below the exploration rate, [act] in
    training mode does not look at the cursor or at the table: with at
    least one action it returns the generator's next draw below
    [num_actions] and raises nothing, also when the cursor is unset or out
    of range. The generator is left after its second draw. *)
Theorem act_exploring self h :
  eval_mode (base self) = false → 0 < _num_actions self →
  ltb (rng_random (h (_rng self))).1 (_exploration_rate self) = true →
  let draw := gen_below (_num_actions self) (rng_random (h (_rng self))).2 in
  act self h =
    (inr (draw.1, set_last_action self draw.1), <[_rng self := draw.2]> h) ∧
  0 ≤ draw.1 < _num_actions self.
Proof.
  intros Hmode Hna Hflip draw. split; [|by apply gen_below_range].
  unfold act, _epsilon_greedy_action. rewrite Hmode.
  destruct (rng_random (h (_rng self))) as [u g1] eqn:Hdraw. cbn in Hflip.
  rewrite Hflip. unfold rng_randint. rewrite decide_False by lia. cbn.
  subst draw. cbn. by destruct (gen_below (_num_actions self) g1).
Qed.

Lemma concat_empty_rows (q : list (list R)) :
  Forall (λ row, length row = 0%nat) q → concat q = [].
Proof.
  induction 1 as [|row q Hrow _ IH]; [done|].
  destruct row; [done | done].
Qed.

(** X6. An agent without actions cannot act: on a table of the
    constructor's shape with [num_actions = 0], [act] raises [ValueError]
    in both modes whenever the cursor is unset or within
    [-num_states, num_states), from the draw of an action below 0 or from
    the maximum of an empty row. *)
Theorem act_without_actions self h :
  wf_agent self → _num_actions self = 0 →
  (_last_state self = None ∨
   ∃ s, _last_state self = Some s ∧
        - _num_states self ≤ s < _num_states self) →
  (act self h).1 = inl ValueError.
Proof.
  intros Hwf Hna Hcursor.
  assert (_greedy_action self = inl ValueError) as Hgreedy.
  { destruct Hcursor as [Hnone|(s & Hs & Hin)].
    - unfold _greedy_action. rewrite Hnone.
      rewrite concat_empty_rows; [done|].
      destruct Hwf as (_ & _ & _ & Hrows). rewrite Hna in Hrows.
      exact Hrows.
    - unfold _greedy_action. rewrite Hs.
      destruct (getitem_inside (_Q self) s) as (k & row & _ & Hk & ->).
      { rewrite (wf_agent_rows self Hwf). lia. }
      pose proof (wf_agent_cols self k row Hwf Hk) as Hcols.
      destruct row; [done | cbn in Hcols; lia]. }
  unfold act. destruct (eval_mode (base self)); [by rewrite Hgreedy|].
  unfold _epsilon_greedy_action.
  destruct (rng_random (h (_rng self))) as [u g1].
  destruct (ltb u (_exploration_rate self)).
  - unfold rng_randint. by rewrite Hna, decide_True by lia.
  - by rewrite Hgreedy.
Qed.
End exploration.

Lemma act_exploring_witness :
  let draw := gen_below (_num_actions exploring_agent)
                (rng_random (sample_store (_rng exploring_agent))).2 in
  act exploring_agent sample_store =
    (inr (draw.1, set_last_action exploring_agent draw.1),
     <[_rng exploring_agent := draw.2]> sample_store) ∧
  0 ≤ draw.1 < _num_actions exploring_agent.
Proof.
  apply (act_exploring exploring_agent sample_store).
  - reflexivity.
  - cbn. lia.
  - vm_compute. reflexivity.
Defined.

Lemma act_without_actions_witness :
  (act actionless_agent sample_store).1 = inl ValueError.
Proof.
  apply (act_without_actions actionless_agent sample_store).
  - repeat split; cbn; [lia | lia | by repeat constructor].
  - reflexivity.
  - right. exists 1. split; [reflexivity | cbn; lia].
Defined.

(** ** What [learn] writes *)

Section writes.
Context {R : Type} `{Scalar R}.
Implicit Types (self : QLearningAgent R) (q : list (list R)).

(** X7. Whenever [learn] succeeds with an integer cursor [s], negative
    indices included, it writes one cell: the one at the positions that
    numpy normalises the cursor and the recorded action to. Every other
    cell, the number of rows, the hyperparameters, the flag and the
    recorded action are as before, and the cursor is the observation. *)
Theorem learn_writes_one_cell self (s : Z) (reward : R) (o : Z) self' :
  _last_state self = Some s → learn self reward o = inr self' →
  ∃ (a : Z) (i j : nat) (row : list R),
    _last_action (base self) = Some a ∧
    normalize_index (length (_Q self)) s = inr i ∧
    _Q self !! i = Some row ∧
    normalize_index (length row) a = inr j ∧
    (∀ i' j', (i', j') ≠ (i, j) →
              cell (_Q self') i' j' = cell (_Q self) i' j') ∧
    length (_Q self') = length (_Q self) ∧
    _last_state self' = Some o ∧
    configuration self' = configuration self ∧ base self' = base self.
Proof.
  intros Hs. unfold learn, get_last_action.
  destruct (_last_action (base self)) as [a|]; [|done]. cbn.
  destruct (getitem (_Q self) o) as [e|next_row]; [done|]. cbn.
  destruct (np_max next_row) as [e|best]; [done|]. cbn.
  rewrite Hs. unfold update_Q.
  destruct (normalize_index (length (_Q self)) s) as [e|i] eqn:Hi; [done|].
  cbn. destruct (getitem (_Q self) s) as [e|row] eqn:Hrow; [done|]. cbn.
  destruct (normalize_index (length row) a) as [e|j] eqn:Hj; [done|]. cbn.
  destruct (getitem row a) as [e|old]; [done|]. cbn. intros [= <-].
  apply getitem_inr in Hrow as (i' & Hi' & Hrow).
  rewrite Hi in Hi'. injection Hi' as <-.
  exists a, i, j, row. cbn. repeat split; try done.
  - intros i' j' Hne. by apply cell_insert_ne.
  - by rewrite length_insert.
Qed.

(** X8. [learn] with the cursor unset, which is how a fresh agent is left
    by [act] without [begin_episode]: the index [None, last_action]
    selects the row numbered by the recorded action, so with that number
    and the observation both in [0, num_states) and at least one action
    the call raises nothing and applies the update to every entry of that
    row, each from its own old value; the other rows are as before and
    the cursor becomes the observation. *)
Theorem learn_unset_cursor self (a : Z) (reward : R) (o : Z) :
  wf_agent self → 0 < _num_actions self →
  _last_state self = None → _last_action (base self) = Some a →
  0 ≤ a < _num_states self → 0 ≤ o < _num_states self →
  ∃ self' row next_row best,
    learn self reward o = inr self' ∧
    _Q self !! Z.to_nat a = Some row ∧
    _Q self !! Z.to_nat o = Some next_row ∧ np_max next_row = inr best ∧
    _Q self' !! Z.to_nat a =
      Some ((λ old, add old
                      (mul (_learning_rate self)
                         (sub (add reward (mul (_discount_factor self) best))
                            old))) <$> row) ∧
    (∀ i, i ≠ Z.to_nat a → _Q self' !! i = _Q self !! i) ∧
    _last_state self' = Some o.
Proof.
  intros Hwf Hna Hnone Ha Harow Ho.
  destruct (wf_agent_row self a Hwf Harow) as (row & Hrow & Hget & _).
  destruct (wf_agent_row self o Hwf Ho) as (next_row & Hnext & Hgetn & Hlen).
  destruct next_row as [|x xs]; [cbn in Hlen; lia|].
  exists (set_last_state
            (set_Q self
               (<[Z.to_nat a :=
                    td_update (_learning_rate self)
                      (add reward
                         (mul (_discount_factor self) (foldl maximum x xs)))
                    <$> row]> (_Q self))) o),
    row, (x :: xs), (foldl maximum x xs).
  split.
  { unfold learn, get_last_action. rewrite Ha, Hnone. cbn.
    rewrite Hgetn. cbn. unfold update_Q.
    rewrite normalize_index_nonneg
      by (apply lookup_lt_Some in Hrow; lia). cbn.
    by rewrite Hget. }
  split; [done|]. split; [done|]. split; [done|]. cbn. split.
  - rewrite list_lookup_insert_eq; [done | by eapply lookup_lt_Some].
  - split; [|done]. intros i Hi. by rewrite list_lookup_insert_ne.
Qed.
End writes.

Lemma learn_writes_one_cell_witness :
  let self := begin_episode trained_agent (-2) in
  let self' :=
    set_last_state (set_Q self [[0; 1392 # 800; 1 # 2]; [1; 2; 2]]%Q) 1 in
  ∃ (a : Z) (i j : nat) (row : list Q),
    _last_action (base self) = Some a ∧
    normalize_index (length (_Q self)) (-2) = inr i ∧
    _Q self !! i = Some row ∧
    normalize_index (length row) a = inr j ∧
    (∀ i' j', (i', j') ≠ (i, j) →
              cell (_Q self') i' j' = cell (_Q self) i' j') ∧
    length (_Q self') = length (_Q self) ∧
    _last_state self' = Some 1 ∧
    configuration self' = configuration self ∧ base self' = base self.
Proof.
  intros self self'.
  apply (learn_writes_one_cell self (-2) 1%Q 1 self').
  - reflexivity.
  - vm_compute. reflexivity.
Defined.

Lemma learn_unset_cursor_witness :
  ∃ self' row next_row best,
    learn (set_last_action fresh_agent 0) 1%Q 1 = inr self' ∧
    _Q (set_last_action fresh_agent 0) !! Z.to_nat 0 = Some row ∧
    _Q (set_last_action fresh_agent 0) !! Z.to_nat 1 = Some next_row ∧
    np_max next_row = inr best ∧
    _Q self' !! Z.to_nat 0 =
      Some ((λ old, add old
                      (mul (_learning_rate (set_last_action fresh_agent 0))
                         (sub (add 1%Q
                                 (mul (_discount_factor
                                         (set_last_action fresh_agent 0))
                                    best))
                            old))) <$> row) ∧
    (∀ i, i ≠ Z.to_nat 0 →
          _Q self' !! i = _Q (set_last_action fresh_agent 0) !! i) ∧
    _last_state self' = Some 1.
Proof.
  apply (learn_unset_cursor (set_last_action fresh_agent 0) 0 1%Q 1).
  - apply fresh_agent_wf.
  - cbn. lia.
  - reflexivity.
  - reflexivity.
  - cbn. lia.
  - cbn. lia.
Defined.

(** The row update worked out: after [act] on the fresh agent, [learn(1, 1)]
    sets all of row 0 to 1/2. *)
Example learn_after_act_on_fresh_agent :
  learn (set_last_action fresh_agent 0) 1%Q 1 =
    inr (set_last_state
           (set_Q (set_last_action fresh_agent 0)
              [[100 # 200; 100 # 200; 100 # 200]; [0; 0; 0]]%Q) 1).
Proof. vm_compute. reflexivity. Qed.

(** ** Invariants of every script *)

Section invariants.
Context {R G : Type} `{Scalar R, Generator R G, Machine}.
Implicit Types (self : QLearningAgent R) (h : store G) (c : call R).

Lemma learn_configuration self (reward : R) (o : Z) self' :
  learn self reward o = inr self' →
  configuration self' = configuration self ∧ base self' = base self.
Proof.
  unfold learn. destruct (get_last_action (base self)); [done|]. cbn.
  destruct (getitem (_Q self) o); [done|]. cbn.
  destruct (np_max _); [done|]. cbn.
  destruct (update_Q _ _ _ _ _); [done|]. cbn. by intros [= <-].
Qed.

Lemma step_configuration c self h out self' h' :
  step c self h = (inr (out, self'), h') →
  configuration self' = configuration self.
Proof.
  destruct c; cbn.
  - unfold seed. destruct (rng_seed s); cbn; [done|]. by intros [= <- <- <-].
  - by intros [= <- <- <-].
  - by intros [= <- <- <-].
  - unfold act.
    destruct (if eval_mode (base self) then _ else _) as [[e|k] h''];
      cbn; [done|]. by intros [= <- <- <-].
  - destruct (learn self reward observation) as [e|a] eqn:Hlearn; [done|].
    cbn. intros [= <- <- <-]. by apply learn_configuration in Hlearn as [? _].
Qed.

Lemma step_table c self h out self' h' :
  (∀ r o, c ≠ Learn r o) → step c self h = (inr (out, self'), h') →
  _Q self' = _Q self.
Proof.
  intros Hc. destruct c; cbn.
  - unfold seed. destruct (rng_seed s); cbn; [done|]. by intros [= <- <- <-].
  - by intros [= <- <- <-].
  - by intros [= <- <- <-].
  - unfold act.
    destruct (if eval_mode (base self) then _ else _) as [[e|k] h''];
      cbn; [done|]. by intros [= <- <- <-].
  - by destruct (Hc reward observation).
Qed.

Lemma step_store_frame c self h l :
  l ≠ _rng self → (step c self h).2 l = h l.
Proof.
  intros Hl. destruct c; cbn; try done.
  - unfold seed. destruct (rng_seed s); cbn; [done|].
    by rewrite store_insert_ne.
  - unfold act. destruct (eval_mode (base self)); [done|].
    unfold _epsilon_greedy_action.
    destruct (rng_random (h (_rng self))) as [u g1].
    destruct (ltb u (_exploration_rate self)).
    + destruct (rng_randint (_num_actions self) g1) as [e|[k g2]];
        cbn; by rewrite store_insert_ne.
    + cbn. by rewrite store_insert_ne.
Qed.

(** X9. Whatever script drives an agent that the constructor returned, and
    whether or not the script ends in an exception, the agent it leaves has
    the hyperparameters and the generator reference it was constructed
    with, and a table of [num_states] rows of [num_actions] entries: no
    method assigns the one or resizes the other. *)
Theorem drive_keeps_configuration_and_shape (num_actions num_states : Z)
    (alpha epsilon gamma : R) self (cs : list (call R)) h :
  __init__ num_actions num_states alpha epsilon gamma = inr self →
  configuration (final (drive cs self h)) =
    (num_actions, num_states, alpha, epsilon, gamma, np_random) ∧
  has_shape (Z.to_nat num_states) (Z.to_nat num_actions)
    (_Q (final (drive cs self h))).
Proof.
  intros Hinit. pose proof (init_wf _ _ _ _ _ _ Hinit) as Hwf.
  assert (configuration self =
            (num_actions, num_states, alpha, epsilon, gamma, np_random))
    as Hconf.
  { unfold __init__ in Hinit.
    destruct (np_zeros num_states num_actions); [done|].
    cbn in Hinit. by injection Hinit as <-. }
  assert (configuration (final (drive cs self h)) = configuration self ∧
          wf_agent (final (drive cs self h))) as [Hc Hw].
  { clear Hinit Hconf. revert self h Hwf.
    induction cs as [|c cs IH]; intros self h Hwf; [done|]. cbn [drive].
    destruct (step c self h) as [[e|[out self']] h'] eqn:Hstep; [done|].
    cbn. destruct (IH self' h') as [Hc' Hw']; [by eapply step_wf|].
    split; [|done]. rewrite Hc'. by eapply step_configuration. }
  split; [by rewrite Hc|].
  destruct Hw as (_ & _ & Hshape). unfold configuration in Hc, Hconf.
  rewrite Hconf in Hc. injection Hc as Hna Hns _ _ _ _.
  by rewrite <-Hna, <-Hns.
Qed.

(** X10. Only [learn] writes the table: a script without a [learn] call
    (seeding, switching the mode, beginning episodes, acting in either
    mode) leaves every entry as it was. *)
Theorem drive_without_learn self (cs : list (call R)) h :
  (∀ r o, Learn r o ∉ cs) → _Q (final (drive cs self h)) = _Q self.
Proof.
  revert self h. induction cs as [|c cs IH]; intros self h Hcs; [done|].
  cbn [drive].
  destruct (step c self h) as [[e|[out self']] h'] eqn:Hstep; [done|]. cbn.
  rewrite IH.
  - eapply step_table; [|done]. intros r o ->. apply (Hcs r o). by left.
  - intros r o Hin. apply (Hcs r o). by right.
Qed.

(** X11. A script touches no generator but the one the agent's [_rng]
    refers to: every other entry of the store is as it was when the script
    ends, with or without an exception. *)
Theorem drive_store_frame self (cs : list (call R)) h (l : ref) :
  l ≠ _rng self → final_store (drive cs self h) l = h l.
Proof.
  revert self h. induction cs as [|c cs IH]; intros self h Hl; [done|].
  cbn [drive]. pose proof (step_store_frame c self h l Hl) as Hframe.
  destruct (step c self h) as [[e|[out self']] h'] eqn:Hstep; [done|]. cbn.
  cbn in Hframe. rewrite IH; [done|].
  by rewrite (step_rng _ _ _ _ _ _ Hstep).
Qed.
End invariants.

Lemma drive_keeps_configuration_and_shape_witness :
  let cs := [BeginEpisode 0; Act; Learn 1%Q 7; Act] in
  configuration (final (drive cs fresh_agent sample_store)) =
    (3, 2, (1 # 2)%Q, (1 # 10)%Q, (99 # 100)%Q, np_random) ∧
  has_shape (Z.to_nat 2) (Z.to_nat 3)
    (_Q (final (drive cs fresh_agent sample_store))).
Proof.
  intros cs.
  apply (drive_keeps_configuration_and_shape
           3 2 (1 # 2)%Q (1 # 10)%Q (99 # 100)%Q). reflexivity.
Defined.

Lemma drive_without_learn_witness :
  _Q (final (drive [Seed 7; BeginEpisode 1; Act; SetEvalMode true; Act]
               trained_agent sample_store)) = _Q trained_agent.
Proof.
  apply (drive_without_learn trained_agent).
  intros r o Hin. repeat (apply elem_of_cons in Hin as [Hin|Hin]; [done|]).
  by apply elem_of_nil in Hin.
Defined.

Lemma drive_store_frame_witness :
  final_store (drive [Seed 7; BeginEpisode 1; Act] trained_agent sample_store)
    1%nat = sample_store 1%nat.
Proof. by apply (drive_store_frame trained_agent). Defined.

(** ** Scripts that follow the protocol *)

Section protocol.
Context {R G : Type} `{Scalar R, Generator R G, Machine}.
Context `{!GeneratorSpec R G}.
Implicit Types (self : QLearningAgent R) (h : store G) (c : call R).

(** [act] with the cursor on a state in range. *)
Lemma act_with_cursor self (s : Z) h :
  wf_agent self → 0 < _num_actions self →
  _last_state self = Some s → 0 ≤ s < _num_states self →
  ∃ k h', act self h = (inr (k, set_last_action self k), h') ∧
          0 ≤ k < _num_actions self.
Proof.
  intros Hwf Hna Hs Hrange.
  destruct (wf_agent_row self s Hwf Hrange) as (row & _ & Hrow & Hlen).
  destruct (np_argmax_range row) as (k & Hk & Hklen).
  { intros ->. cbn in Hlen. lia. }
  pose proof (greedy_action_row self s row Hs Hrow) as Hgreedy.
  unfold act. destruct (eval_mode (base self)).
  { rewrite Hgreedy, Hk. cbn. eexists _, _. split; [done | lia]. }
  unfold _epsilon_greedy_action.
  destruct (rng_random (h (_rng self))) as [u g1].
  destruct (ltb u (_exploration_rate self)).
  - unfold rng_randint. rewrite decide_False by lia. cbn.
    pose proof (gen_below_range (_num_actions self) g1 Hna) as Hdraw.
    destruct (gen_below (_num_actions self) g1) as [k' g2]. cbn in *.
    eexists _, _. split; [done | lia].
  - rewrite Hgreedy, Hk. cbn. eexists _, _. split; [done | lia].
Qed.

(** [learn] with the cursor, the recorded action and the observation in
    range. *)
Lemma learn_with_action self (s a : Z) (reward : R) (o : Z) :
  wf_agent self →
  _last_state self = Some s → 0 ≤ s < _num_states self →
  _last_action (base self) = Some a → 0 ≤ a < _num_actions self →
  0 ≤ o < _num_states self →
  ∃ self', learn self reward o = inr self' ∧ wf_agent self' ∧
           configuration self' = configuration self ∧
           base self' = base self ∧ _last_state self' = Some o.
Proof.
  intros Hwf Hs Hsr Ha Har Ho.
  destruct (wf_agent_row self s Hwf Hsr) as (row & Hrow & _ & Hlen).
  destruct (wf_agent_row self o Hwf Ho) as (next_row & Hnext & _ & Hlen').
  destruct (lookup_lt_is_Some_2 row (Z.to_nat a)) as [old Hold]; [lia|].
  destruct next_row as [|x xs]; [cbn in Hlen'; lia|].
  eexists. split.
  { eapply learn_in_range; eauto; lia. }
  split; [|done].
  destruct Hwf as (? & ? & Hshape). repeat split; cbn; try done.
  - by rewrite length_insert, (proj1 Hshape).
  - apply Forall_insert; [apply Hshape|]. by rewrite length_insert.
Qed.

(** A call that the protocol admits raises nothing, leads to the state of
    the next phase, and returns an action in range if it returns one. *)
Lemma step_admitted c (p p' : phase) self h :
  in_phase p self → admits (_num_states self) p c = Some p' →
  ∃ out self' h',
    step c self h = (inr (out, self'), h') ∧ in_phase p' self' ∧
    configuration self' = configuration self ∧
    ∀ k, out = Some k → 0 ≤ k < _num_actions self.
Proof.
  intros Hphase Hadm. pose proof Hphase as (Hwf & Hna & Hp).
  destruct c as [s|b|o| |r o]; cbn in Hadm.
  - case_decide as Hseed; [|done]. injection Hadm as <-.
    cbn. unfold seed, rng_seed. rewrite decide_True by done. cbn.
    eexists _, _, _. split; [done|]. by split.
  - injection Hadm as <-. eexists _, _, _. split; [done|]. by split.
  - case_decide as Ho; [|done]. injection Hadm as <-.
    eexists _, _, _. split; [done|]. split; [|done].
    split; [done|]. split; [done|]. destruct p; cbn; [eauto | eauto |].
    destruct Hp as [_ Hact]. split; [eauto | done].
  - assert (∃ s, _last_state self = Some s ∧ 0 ≤ s < _num_states self)
      as (s & Hs & Hrange) by (destruct p; [done | done | apply Hp]).
    assert (p' = HasAction) as -> by (destruct p; congruence).
    destruct (act_with_cursor self s h Hwf Hna Hs Hrange)
      as (k & h' & Hact & Hk).
    exists (Some k), (set_last_action self k), h'. cbn. rewrite Hact. cbn.
    split; [done|]. split; [|split; [done | by intros ? [= <-]]].
    split; [done|]. split; [done|]. split; eauto.
  - destruct p; [done | done |]. case_decide as Ho; [|done].
    injection Hadm as <-. destruct Hp as [(s & Hs & Hsr) (a & Ha & Har)].
    destruct (learn_with_action self s a r o Hwf Hs Hsr Ha Har Ho)
      as (self' & Hlearn & Hwf' & Hconf & Hbase & Hcursor).
    exists None, self', h. cbn. rewrite Hlearn. cbn.
    pose proof Hconf as Hfields. unfold configuration in Hfields.
    injection Hfields as Hna' Hns' _ _ _ _.
    split; [done|]. split; [|split; [done | done]].
    split; [done|]. split; [lia|]. rewrite Hbase, Hns', Hna'.
    split; [exists o; by rewrite Hcursor | eauto].
Qed.

(** X12. A script that follows the protocol never raises. On an agent
    constructed with at least one action, if every seed is a 32-bit
    unsigned integer, every observation lies in [0, num_states), no [act]
    comes before the first [begin_episode] and no [learn] before the first
    [act], then the script runs to its end and every action it returns
    lies in [0, num_actions). *)
Theorem protocol_never_raises (num_actions num_states : Z)
    (alpha epsilon gamma : R) self (cs : list (call R)) h :
  __init__ num_actions num_states alpha epsilon gamma = inr self →
  0 < num_actions →
  follows_protocol num_states NoCursor cs = true →
  raised (drive cs self h) = None ∧
  Forall (λ k, 0 ≤ k < num_actions) (actions (drive cs self h)).
Proof.
  intros Hinit Hna Hcs.
  destruct (init_inr _ _ _ _ _ _ Hinit) as (_ & <- & <- & _).
  assert (in_phase NoCursor self) as Hphase.
  { split; [by eapply init_wf | done]. }
  clear Hinit. revert Hcs Hphase. generalize NoCursor as p. revert self h Hna.
  induction cs as [|c cs IH]; intros self h Hna p Hcs Hphase.
  { split; [done | by apply Forall_nil]. }
  cbn in Hcs. destruct (admits (_num_states self) p c) as [p'|] eqn:Hadm;
    [|done].
  destruct (step_admitted c p p' self h Hphase Hadm)
    as (out & self' & h' & Hstep & Hphase' & Hconf & Hout).
  cbn [drive]. rewrite Hstep. cbn.
  unfold configuration in Hconf. injection Hconf as Hna' Hns' _ _ _ _.
  destruct (IH self' h') with (p := p') as [Hraised Hactions];
    [lia | by rewrite Hns' | done |].
  split; [done|]. apply Forall_app. split.
  - destruct out as [k|]; cbn; [|by apply Forall_nil].
    apply Forall_cons_2; [by apply Hout | by apply Forall_nil].
  - by rewrite <-Hna'.
Qed.
End protocol.

Lemma protocol_never_raises_witness :
  let cs := [Seed 7; BeginEpisode 0; Act; Learn 1%Q 1; Act;
             Learn (1 # 2)%Q 0; SetEvalMode true; BeginEpisode 1; Act] in
  raised (drive cs fresh_agent sample_store) = None ∧
  Forall (λ k, 0 ≤ k < 3) (actions (drive cs fresh_agent sample_store)).
Proof.
  intros cs.
  apply (protocol_never_raises 3 2 (1 # 2)%Q (1 # 10)%Q (99 # 100)%Q);
    [reflexivity | lia | reflexivity].
Defined.

(** ** Evaluation without a seed *)

Section evaluation.
Context {R G : Type} `{Scalar R, Generator R G, Machine}.
Implicit Types (self : QLearningAgent R) (h : store G) (c : call R).

Lemma step_eval_mode c self h out self' h' :
  eval_mode (base self) = true → c ≠ SetEvalMode false →
  step c self h = (inr (out, self'), h') →
  eval_mode (base self') = true.
Proof.
  intros Hmode Hc. destruct c as [s|b|o| |r o]; cbn.
  - unfold seed. destruct (rng_seed s); cbn; [done|]. by intros [= <- <- <-].
  - intros [= <- <- <-]. cbn. by destruct b.
  - by intros [= <- <- <-].
  - unfold act. rewrite Hmode.
    destruct (_greedy_action self); cbn; [done|]. by intros [= <- <- <-].
  - destruct (learn self r o) as [e|a] eqn:Hlearn; [done|]. cbn.
    intros [= <- <- <-]. apply learn_configuration in Hlearn as [_ Hbase].
    by rewrite Hbase.
Qed.

Lemma step_eval_store_free c self h1 h2 :
  eval_mode (base self) = true →
  (step c self h1).1 = (step c self h2).1.
Proof.
  intros Hmode. destruct c as [s|b|o| |r o]; cbn; try done.
  - unfold seed. by destruct (rng_seed s).
  - unfold act. by rewrite Hmode.
Qed.

(** X13. In evaluation mode nothing depends on the generator: a script
    that starts in evaluation mode and never switches it off returns the
    same actions, ends the same way and leaves the same agent from every
    store, seeded or not, because [act] takes the greedy branch and never
    draws. *)
Theorem drive_eval_mode_ignores_store self (cs : list (call R)) h1 h2 :
  eval_mode (base self) = true → SetEvalMode false ∉ cs →
  actions (drive cs self h1) = actions (drive cs self h2) ∧
  raised (drive cs self h1) = raised (drive cs self h2) ∧
  final (drive cs self h1) = final (drive cs self h2).
Proof.
  revert self h1 h2.
  induction cs as [|c cs IH]; intros self h1 h2 Hmode Hcs; [done|].
  cbn [drive]. pose proof (step_eval_store_free c self h1 h2 Hmode) as Hres.
  destruct (step c self h1) as [[e|[out self']] h1'] eqn:Hstep;
    destruct (step c self h2) as [r2 h2']; cbn in Hres; subst r2; [done|].
  destruct (IH self' h1' h2') as (Hacts & Hraised & Hfinal).
  - eapply step_eval_mode; [done| |done]. intros ->. apply Hcs. by left.
  - intros Hin. apply Hcs. by right.
  - cbn. by rewrite Hacts, Hraised, Hfinal.
Qed.
End evaluation.

Lemma drive_eval_mode_ignores_store_witness :
  let self := set_eval_mode trained_agent true in
  let cs := [BeginEpisode 1; Act; Learn 1%Q 0; Seed 7; Act] in
  actions (drive cs self sample_store) = actions (drive cs self (λ _, 7)) ∧
  raised (drive cs self sample_store) = raised (drive cs self (λ _, 7)) ∧
  final (drive cs self sample_store) = final (drive cs self (λ _, 7)).
Proof.
  intros self cs. apply (drive_eval_mode_ignores_store self cs).
  - reflexivity.
  - intros Hin. repeat (apply elem_of_cons in Hin as [Hin|Hin]; [done|]).
    by apply elem_of_nil in Hin.
Defined.
